(** * 2D prefix sums: the maximum window sum of [main.cpp]

    A shallow embedding of [src/main.cpp] (the enhanced variant in
    [src/Project5_enhanced/main.cpp] runs the same three loops around extra
    console output) and the proofs of its specification.

    - [int] is a 32-bit signed integer: values are [Z] and every [+] and [-]
      on grid values is followed by the two's-complement wrap-around [wrap].
    - [static int s[MAXC][MAXC]] is a zero-initialised table; a cell is read
      or written through [rd] and [wr], which yield [None] when an index
      leaves [0, MAXC): the access is then outside the array and the C++
      program has no defined behaviour.
    - [for (int i = lo; i < hi; i++)] is [for_range lo hi].
    - [main m pts] is the program on the window side [m] and the list of
      the [n] points in the order read; [main_stdin] runs it on the integer
      tokens of the standard input. *)

From Stdlib Require Import ZArith List Bool Lia Morphisms Setoid Permutation.
Import ListNotations.
Open Scope Z_scope.

(** ** 32-bit signed integers *)

Definition int_min : Z := -2147483648.
Definition int_max : Z := 2147483647.

Definition wrap (z : Z) : Z := (z + 2147483648) mod 4294967296 - 2147483648.

Definition add32 (a b : Z) : Z := wrap (a + b).
Definition sub32 (a b : Z) : Z := wrap (a - b).

(** Two integers that differ by a multiple of [2^32]. *)
Definition eqm (a b : Z) : Prop := exists k, a = b + k * 4294967296.

(** ** The option monad of array accesses *)

Definition bind {A B : Type} (o : option A) (k : A -> option B) : option B :=
  match o with
  | Some a => k a
  | None => None
  end.

Notation "x <- e ;; k" := (bind e (fun x => k))
  (at level 61, e at next level, right associativity).

(** [for (int i = lo; i < hi; i++) body]: [k] iterations remain, the loop
    variable is [i]. *)
Fixpoint for_loop {S : Type} (k : nat) (i : Z) (body : Z -> S -> option S)
    (st : S) : option S :=
  match k with
  | O => Some st
  | Datatypes.S k' => st' <- body i st ;; for_loop k' (i + 1) body st'
  end.

Definition for_range {S : Type} (lo hi : Z) (body : Z -> S -> option S)
    (st : S) : option S :=
  for_loop (Z.to_nat (hi - lo)) lo body st.

(** ** Points and the grid *)

Record point : Type := mkPoint { px : Z; py : Z; pv : Z }.

Definition grid : Type := Z -> Z -> Z.

(** A static array starts zeroed. *)
Definition zero_grid : grid := fun _ _ => 0.

Definition upd (s : grid) (a b v : Z) : grid :=
  fun i j => if (i =? a) && (j =? b) then v else s i j.

Section Dim.

(** The side of the table; [MAXC] in the program. *)
Variable d : Z.

Definition in_bounds (i j : Z) : bool :=
  (0 <=? i) && (i <? d) && (0 <=? j) && (j <? d).

Definition rd (s : grid) (i j : Z) : option Z :=
  if in_bounds i j then Some (s i j) else None.

Definition wr (s : grid) (i j v : Z) : option grid :=
  if in_bounds i j then Some (upd s i j v) else None.

(** [s[x + 1][y + 1] += v;] *)
Definition ingest_point (s : grid) (p : point) : option grid :=
  c <- rd s (px p + 1) (py p + 1) ;;
  wr s (px p + 1) (py p + 1) (add32 c (pv p)).

(** The loop over the [n] points of the input. *)
Fixpoint ingest_from (pts : list point) (s : grid) : option grid :=
  match pts with
  | [] => Some s
  | p :: rest => s' <- ingest_point s p ;; ingest_from rest s'
  end.

(** [s[i][j] += s[i - 1][j] + s[i][j - 1] - s[i - 1][j - 1];] *)
Definition build_cell (i j : Z) (s : grid) : option grid :=
  a <- rd s (i - 1) j ;;
  b <- rd s i (j - 1) ;;
  c <- rd s (i - 1) (j - 1) ;;
  e <- rd s i j ;;
  wr s i j (add32 e (sub32 (add32 a b) c)).

Definition build_row (i : Z) (s : grid) : option grid :=
  for_range 1 d (build_cell i) s.

Definition build_from (s : grid) : option grid :=
  for_range 1 d build_row s.

(** [int sum = s[i][j] - s[i - m][j] - s[i][j - m] + s[i - m][j - m];] *)
Definition window_query (s : grid) (m i j : Z) : option Z :=
  a <- rd s i j ;;
  b <- rd s (i - m) j ;;
  c <- rd s i (j - m) ;;
  e <- rd s (i - m) (j - m) ;;
  Some (add32 (sub32 (sub32 a b) c) e).

(** [ans = max(ans, sum);] *)
Definition scan_cell (s : grid) (m i j : Z) (ans : Z) : option Z :=
  sum <- window_query s m i j ;;
  Some (Z.max ans sum).

Definition scan_row (s : grid) (m i : Z) (ans : Z) : option Z :=
  for_range m d (scan_cell s m i) ans.

Definition scan_from (s : grid) (m : Z) : option Z :=
  for_range m d (scan_row s m) 0.

(** The whole of [main]: ingest into the zeroed table, build the prefix
    sums in place, scan the windows, print [ans]. *)
Definition run (m : Z) (pts : list point) : option Z :=
  raw <- ingest_from pts zero_grid ;;
  table <- build_from raw ;;
  scan_from table m.

End Dim.

(** ** The program at its own size *)

Definition MAXC : Z := 5005.

(** The largest index of the table, the spec's coordinate bound [C]: the
    table is [(C+1) x (C+1)] and the scan runs over [m <= i, j <= C]. *)
Definition C : Z := MAXC - 1.

Definition ingest (pts : list point) (s : grid) : option grid :=
  ingest_from MAXC pts s.

Definition buildPrefixSums (s : grid) : option grid := build_from MAXC s.

Definition maxWindowSum (s : grid) (m : Z) : option Z := scan_from MAXC s m.

Definition main (m : Z) (pts : list point) : option Z := run MAXC m pts.

(** The standard input as its integer tokens: [cin >> n >> m;] and then
    [n] times [cin >> x >> y >> v;]. Tokens after the last point are never
    read; an input that ends early leaves no defined result. *)
Fixpoint read_points (k : nat) (tokens : list Z) : option (list point) :=
  match k with
  | O => Some []
  | Datatypes.S k' =>
      match tokens with
      | x :: y :: v :: rest =>
          pts <- read_points k' rest ;; Some (mkPoint x y v :: pts)
      | _ => None
      end
  end.

Definition main_stdin (tokens : list Z) : option Z :=
  match tokens with
  | n :: m :: rest => pts <- read_points (Z.to_nat n) rest ;; main m pts
  | _ => None
  end.

(** The tokens of a list of points. *)
Definition tokens_of (pts : list point) : list Z :=
  flat_map (fun p => [px p; py p; pv p]) pts.

(** ** The specification's side: direct sums over the points *)

(** The point lies in the rectangle [x0, x1] x [y0, y1] of original
    coordinates. *)
Definition inside (x0 x1 y0 y1 : Z) (p : point) : bool :=
  (x0 <=? px p) && (px p <=? x1) && (y0 <=? py p) && (py p <=? y1).

Definition sum_values (pts : list point) : Z :=
  fold_right (fun p acc => pv p + acc) 0 pts.

(** The sum of the values of the points captured by a rectangle, by direct
    enumeration of the points. *)
Definition rect_sum (pts : list point) (x0 x1 y0 y1 : Z) : Z :=
  sum_values (filter (inside x0 x1 y0 y1) pts).

(** What the points at one coordinate add up to. *)
Definition cell_sum (pts : list point) (x y : Z) : Z := rect_sum pts x x y y.

(** The window whose last table index is [(i, j)] covers the original
    coordinates [i-m, i-1] x [j-m, j-1]. *)
Definition window_sum (pts : list point) (m i j : Z) : Z :=
  rect_sum pts (i - m) (i - 1) (j - m) (j - 1).

(** The prefix sum that cell [(i, j)] of the table is to hold. *)
Definition prefix_sum (pts : list point) (i j : Z) : Z :=
  rect_sum pts 0 (i - 1) 0 (j - 1).

Definition sum_abs (pts : list point) : Z :=
  fold_right (fun p acc => Z.abs (pv p) + acc) 0 pts.

(** The largest value of a single point, 0 for no point. *)
Definition max_value (pts : list point) : Z :=
  fold_right (fun p acc => Z.max (pv p) acc) 0 pts.

Definition coord (p : point) : Z * Z := (px p, py p).

(** The coordinates whose shifted cell is inside a table of side [d] and
    off its row 0 and column 0. *)
Definition valid_point (d : Z) (p : point) : Prop :=
  0 <= px p <= d - 2 /\ 0 <= py p <= d - 2.

Definition valid_points (d : Z) (pts : list point) : Prop :=
  Forall (valid_point d) pts.

(** The coordinates whose shifted cell is inside the table at all. *)
Definition writable (d : Z) (p : point) : Prop :=
  -1 <= px p <= d - 2 /\ -1 <= py p <= d - 2.

Definition nonneg_values (pts : list point) : Prop :=
  Forall (fun p => 0 <= pv p) pts.

(** The window placements the scan visits: [m <= i, j < d]. *)
Definition window (d m i j : Z) : Prop := m <= i < d /\ m <= j < d.

(** The coordinates of the cells a side-1 window can sit on. *)
Definition cell (d x y : Z) : Prop := 0 <= x <= d - 2 /\ 0 <= y <= d - 2.

(** [r] is the maximum of [f] over [W]. *)
Definition is_max (W : Z -> Z -> Prop) (f : Z -> Z -> Z) (r : Z) : Prop :=
  (exists i j, W i j /\ f i j = r) /\ (forall i j, W i j -> f i j <= r).

(** [r] is the maximum of [f] over [W], floored at 0: what a running
    maximum that starts from [ans = 0] ends with. *)
Definition floor_max (W : Z -> Z -> Prop) (f : Z -> Z -> Z) (r : Z) : Prop :=
  0 <= r /\
  (forall i j, W i j -> f i j <= r) /\
  (r = 0 \/ exists i j, W i j /\ f i j = r).

(** The indices [lo, lo+1, ..., hi-1]. *)
Definition zrange (lo hi : Z) : list Z :=
  map (fun k => lo + Z.of_nat k) (seq 0 (Z.to_nat (hi - lo))).

(** The cross-check of the spec: every window is enumerated and its sum is
    taken directly over the points, in [O(n * d^2)]; the answer starts at 0
    as the program's does. *)
Definition bruteForce (d m : Z) (pts : list point) : Z :=
  fold_left Z.max
    (flat_map (fun i => map (fun j => window_sum pts m i j) (zrange m d))
       (zrange m d))
    0.

(** What a query reads off a table, when its four cells are inside. *)
Definition window_value (s : grid) (m i j : Z) : Z :=
  add32 (sub32 (sub32 (s i j) (s (i - m) j)) (s i (j - m))) (s (i - m) (j - m)).

(** ** Loop invariants *)

(** Cell [(a, b)] has been rewritten when the loops of the build stand at
    [(i, j)]. *)
Definition built (d i j a b : Z) : Prop :=
  1 <= a /\ 1 <= b < d /\ (a < i \/ (a = i /\ b < j)).

(** Rewritten cells hold their prefix sum, the others still what ingestion
    left in [raw]. *)
Definition build_inv (d : Z) (pts : list point) (raw : grid) (i j : Z)
    (s : grid) : Prop :=
  forall a b,
    (built d i j a b -> s a b = wrap (prefix_sum pts a b)) /\
    (~ built d i j a b -> s a b = raw a b).

(** The windows visited when the loops of the scan stand at [(i, j)]. *)
Definition scanned (d m i j a b : Z) : Prop :=
  (m <= a < i /\ m <= b < d) \/ (a = i /\ m <= b < j).

(** ** Definitions for the properties beyond the specification *)

(** The build on any table: a rewritten cell is the [int] sum of what it
    held and of its three rewritten neighbours; the others are untouched. *)
Definition build_rec_inv (d : Z) (raw : grid) (i j : Z) (s : grid) : Prop :=
  forall a b,
    (built d i j a b ->
     s a b = add32 (raw a b)
               (sub32 (add32 (s (a - 1) b) (s a (b - 1))) (s (a - 1) (b - 1)))) /\
    (~ built d i j a b -> s a b = raw a b).

(** What cell [(a, b)] holds after the build when points of coordinate -1
    were written on row 0 or column 0: its prefix sum and the three border
    cells the recurrence drags along. *)
Definition border_prefix (pts : list point) (a b : Z) : Z :=
  prefix_sum pts a b + cell_sum pts (-1) (b - 1) + cell_sum pts (a - 1) (-1)
  - cell_sum pts (-1) (-1).

(** The point is written off row 0 and column 0. *)
Definition on_table (p : point) : bool := (0 <=? px p) && (0 <=? py p).

(** The sum captured by the square of side [m] whose least corner is
    [(x0, y0)], anywhere in the plane. *)
Definition placement_sum (pts : list point) (m x0 y0 : Z) : Z :=
  rect_sum pts x0 (x0 + m - 1) y0 (y0 + m - 1).


(** The program run on small tables. *)
Example run_sample_small :
  run 6 1 [mkPoint 0 0 1; mkPoint 1 1 1] = Some 1.
Proof. vm_compute. reflexivity. Qed.

Example run_same_cell_small :
  run 6 1 [mkPoint 3 3 5; mkPoint 3 3 7] = Some 12.
Proof. vm_compute. reflexivity. Qed.

Example run_side2_small :
  run 6 2 [mkPoint 0 0 1; mkPoint 1 1 1; mkPoint 3 3 4] = Some 4.
Proof. vm_compute. reflexivity. Qed.

Example run_full_small :
  run 6 5 [mkPoint 0 0 1; mkPoint 1 1 1; mkPoint 4 4 4] = Some 6.
Proof. vm_compute. reflexivity. Qed.

Example run_out_of_bounds_small :
  run 6 1 [mkPoint 5 0 1] = None.
Proof. vm_compute. reflexivity. Qed.

Example run_negative_floor_small :
  run 6 5 [mkPoint 0 0 (-1)] = Some 0.
Proof. vm_compute. reflexivity. Qed.

Example bruteForce_small :
  bruteForce 6 2 [mkPoint 0 0 1; mkPoint 1 1 1; mkPoint 3 3 4] = 4.
Proof. vm_compute. reflexivity. Qed.

Example run_bruteForce_small :
  forallb (fun m => match run 6 m [mkPoint 0 0 3; mkPoint 1 2 5; mkPoint 4 4 2;
                                   mkPoint 1 2 (-4); mkPoint 2 3 7] with
                    | Some r => r =? bruteForce 6 m [mkPoint 0 0 3; mkPoint 1 2 5;
                                   mkPoint 4 4 2; mkPoint 1 2 (-4); mkPoint 2 3 7]
                    | None => false
                    end) [1; 2; 3; 4; 5; 6; 7] = true.
Proof. vm_compute. reflexivity. Qed.

(** ** Wrap-around arithmetic *)

Lemma wrap_small (z : Z) : int_min <= z <= int_max -> wrap z = z.
Proof.
  unfold wrap, int_min, int_max. intros H.
  rewrite Z.mod_small; lia.
Qed.

Lemma wrap_range (z : Z) : int_min <= wrap z <= int_max.
Proof.
  unfold wrap, int_min, int_max.
  pose proof (Z.mod_pos_bound (z + 2147483648) 4294967296). lia.
Qed.

Lemma wrap_shift (z k : Z) : wrap (z + k * 4294967296) = wrap z.
Proof.
  unfold wrap.
  replace (z + k * 4294967296 + 2147483648)
    with (z + 2147483648 + k * 4294967296) by lia.
  now rewrite Z_mod_plus_full.
Qed.

Lemma wrap_decomp (z : Z) : exists k, wrap z = z + k * 4294967296.
Proof.
  exists (- ((z + 2147483648) / 4294967296)).
  unfold wrap. rewrite Z.mod_eq by lia. lia.
Qed.

Lemma wrap_wrap (z : Z) : wrap (wrap z) = wrap z.
Proof. apply wrap_small, wrap_range. Qed.

Lemma wrap_add_l (a b : Z) : wrap (wrap a + b) = wrap (a + b).
Proof.
  destruct (wrap_decomp a) as [k ->].
  replace (a + k * 4294967296 + b) with (a + b + k * 4294967296) by lia.
  apply wrap_shift.
Qed.

Lemma wrap_add_r (a b : Z) : wrap (a + wrap b) = wrap (a + b).
Proof. rewrite (Z.add_comm a), wrap_add_l. f_equal. lia. Qed.

Lemma wrap_sub_l (a b : Z) : wrap (wrap a - b) = wrap (a - b).
Proof. unfold Z.sub. apply wrap_add_l. Qed.

Lemma wrap_sub_r (a b : Z) : wrap (a - wrap b) = wrap (a - b).
Proof.
  destruct (wrap_decomp b) as [k ->].
  replace (a - (b + k * 4294967296)) with (a - b + (- k) * 4294967296) by lia.
  apply wrap_shift.
Qed.

(** Congruence modulo [2^32], under which [wrap] is the identity. *)
#[local] Instance eqm_equiv : Equivalence eqm.
Proof.
  split.
  - intros a. exists 0. lia.
  - intros a b [k ->]. exists (- k). lia.
  - intros a b c [k ->] [k' ->]. exists (k + k'). lia.
Qed.

#[local] Instance add_eqm : Proper (eqm ==> eqm ==> eqm) Z.add.
Proof. intros a a' [k ->] b b' [k' ->]. exists (k + k'). lia. Qed.

#[local] Instance sub_eqm : Proper (eqm ==> eqm ==> eqm) Z.sub.
Proof. intros a a' [k ->] b b' [k' ->]. exists (k - k'). lia. Qed.

#[local] Instance wrap_eqm : Proper (eqm ==> eq) wrap.
Proof. intros a a' [k ->]. apply wrap_shift. Qed.

Lemma wrap_eqm_self (z : Z) : eqm (wrap z) z.
Proof. apply wrap_decomp. Qed.

(** The value [s[i][j] += s[i-1][j] + s[i][j-1] - s[i-1][j-1]] stores, when
    the four cells hold wrapped integers. *)
Lemma build_value (e a b c : Z) :
  add32 (wrap e) (sub32 (add32 (wrap a) (wrap b)) (wrap c))
  = wrap (a + b - c + e).
Proof.
  unfold add32, sub32. apply wrap_eqm. rewrite !wrap_eqm_self.
  replace (e + (a + b - c)) with (a + b - c + e) by lia. reflexivity.
Qed.

(** The value of [s[i][j] - s[i-m][j] - s[i][j-m] + s[i-m][j-m]]. *)
Lemma query_value (a b c e : Z) :
  add32 (sub32 (sub32 (wrap a) (wrap b)) (wrap c)) (wrap e)
  = wrap (a - b - c + e).
Proof.
  unfold add32, sub32. apply wrap_eqm. rewrite !wrap_eqm_self. reflexivity.
Qed.

(** An index that is an [int] is judged the same before and after the
    wrap-around of [x + 1]. *)
Lemma index_wrap_irrelevant (d x y : Z) :
  0 < d <= int_max -> int_min <= x <= int_max -> int_min <= y <= int_max ->
  in_bounds d (add32 x 1) (add32 y 1) = in_bounds d (x + 1) (y + 1).
Proof.
  unfold int_min, int_max, add32, in_bounds. intros Hd Hx Hy.
  assert (Hw : forall z, -2147483648 <= z <= 2147483647 ->
             ((0 <=? wrap (z + 1)) && (wrap (z + 1) <? d))
             = ((0 <=? z + 1) && (z + 1 <? d))).
  { intros z Hz. destruct (Z.eq_dec z 2147483647) as [-> | Hne].
    - change (wrap (2147483647 + 1)) with (-2147483648).
      destruct (Z.ltb_spec (2147483647 + 1) d); [lia | ].
      now rewrite andb_false_r.
    - rewrite wrap_small by (unfold int_min, int_max; lia). reflexivity. }
  rewrite <- !andb_assoc. rewrite (Hw y Hy).
  rewrite !(andb_assoc (0 <=? _) (_ <? d)). rewrite (Hw x Hx). reflexivity.
Qed.

(** ** Loops *)

Lemma for_loop_inv {S : Type} (Inv : Z -> S -> Prop) (body : Z -> S -> option S) :
  forall (k : nat) (i : Z) (st : S),
    Inv i st ->
    (forall j s, i <= j < i + Z.of_nat k -> Inv j s ->
                 exists s', body j s = Some s' /\ Inv (j + 1) s') ->
    exists st', for_loop k i body st = Some st' /\ Inv (i + Z.of_nat k) st'.
Proof.
  induction k as [| k IH]; intros i st Hi Hstep.
  - exists st. split; [reflexivity | ]. now replace (i + Z.of_nat 0) with i by lia.
  - destruct (Hstep i st) as [s1 [Hb H1]]; [lia | assumption | ].
    destruct (IH (i + 1) s1 H1) as [st' [Hl Hinv]].
    + intros j s Hj. apply Hstep. lia.
    + exists st'. split.
      * simpl. rewrite Hb. exact Hl.
      * now replace (i + Z.of_nat (Datatypes.S k)) with (i + 1 + Z.of_nat k) by lia.
Qed.

Lemma for_range_inv {S : Type} (Inv : Z -> S -> Prop) (lo hi : Z)
    (body : Z -> S -> option S) (st : S) :
  Inv lo st ->
  (forall j s, lo <= j < hi -> Inv j s ->
               exists s', body j s = Some s' /\ Inv (j + 1) s') ->
  exists st', for_range lo hi body st = Some st' /\ Inv (Z.max lo hi) st'.
Proof.
  intros H0 Hstep. unfold for_range.
  destruct (for_loop_inv Inv body (Z.to_nat (hi - lo)) lo st H0) as [st' [Hl Hinv]].
  - intros j s Hj. apply Hstep. lia.
  - exists st'. split; [exact Hl | ].
    now replace (Z.max lo hi) with (lo + Z.of_nat (Z.to_nat (hi - lo))) by lia.
Qed.

Lemma for_range_empty {S : Type} (lo hi : Z) (body : Z -> S -> option S) (st : S) :
  hi <= lo -> for_range lo hi body st = Some st.
Proof.
  intros H. unfold for_range. now replace (Z.to_nat (hi - lo)) with O by lia.
Qed.

(** ** Maxima floored at 0 *)

Lemma floor_max_unique (W : Z -> Z -> Prop) (f : Z -> Z -> Z) (r r' : Z) :
  floor_max W f r -> floor_max W f r' -> r = r'.
Proof.
  intros (H0 & Hub & Hat) (H0' & Hub' & Hat').
  assert (r <= r').
  { destruct Hat as [-> | (i & j & Hw & <-)]; [assumption | now apply Hub']. }
  assert (r' <= r).
  { destruct Hat' as [-> | (i & j & Hw & <-)]; [assumption | now apply Hub]. }
  lia.
Qed.

Lemma floor_max_ext (W W' : Z -> Z -> Prop) (f f' : Z -> Z -> Z) (r : Z) :
  (forall i j, W i j <-> W' i j) ->
  (forall i j, W i j -> f i j = f' i j) ->
  floor_max W f r -> floor_max W' f' r.
Proof.
  intros HW Hf (H0 & Hub & Hat). split; [assumption | split].
  - intros i j Hw. apply HW in Hw. rewrite <- (Hf i j Hw). now apply Hub.
  - destruct Hat as [-> | (i & j & Hw & <-)]; [now left | right].
    exists i, j. split; [now apply HW | symmetry; now apply Hf].
Qed.

Lemma floor_max_none (W : Z -> Z -> Prop) (f : Z -> Z -> Z) :
  (forall i j, ~ W i j) -> floor_max W f 0.
Proof.
  intros H. split; [lia | split; [ | now left]].
  intros i j Hw. now apply H in Hw.
Qed.

Lemma floor_max_step (W W' : Z -> Z -> Prop) (f : Z -> Z -> Z) (r i j : Z) :
  (forall a b, W' a b <-> W a b \/ (a = i /\ b = j)) ->
  floor_max W f r -> floor_max W' f (Z.max r (f i j)).
Proof.
  intros HW (H0 & Hub & Hat). split; [lia | split].
  - intros a b Hw. apply HW in Hw. destruct Hw as [Hw | [-> ->]]; [ | lia].
    specialize (Hub a b Hw). lia.
  - destruct (Z.max_spec r (f i j)) as [[Hlt ->] | [Hle ->]].
    + right. exists i, j. split; [apply HW; now right | reflexivity].
    + destruct Hat as [-> | (a & b & Hw & <-)]; [now left | right].
      exists a, b. split; [apply HW; now left | reflexivity].
Qed.

(** ** Sums over the points *)

Lemma inside_spec (x0 x1 y0 y1 : Z) (p : point) :
  inside x0 x1 y0 y1 p = true <-> x0 <= px p <= x1 /\ y0 <= py p <= y1.
Proof. unfold inside. rewrite !andb_true_iff, !Z.leb_le. lia. Qed.

Lemma rect_sum_cons (p : point) (pts : list point) (x0 x1 y0 y1 : Z) :
  rect_sum (p :: pts) x0 x1 y0 y1
  = (if inside x0 x1 y0 y1 p then pv p else 0) + rect_sum pts x0 x1 y0 y1.
Proof.
  unfold rect_sum. simpl. destruct (inside x0 x1 y0 y1 p); reflexivity.
Qed.

Ltac split_inside :=
  unfold inside; cbn [px py pv];
  repeat match goal with
         | |- context [?a <=? ?b] => destruct (Z.leb_spec a b)
         end;
  simpl; try lia.

(** The recurrence of the prefix sums. *)
Lemma prefix_sum_rec (pts : list point) (i j : Z) :
  1 <= i -> 1 <= j ->
  prefix_sum pts i j
  = prefix_sum pts (i - 1) j + prefix_sum pts i (j - 1)
    - prefix_sum pts (i - 1) (j - 1) + cell_sum pts (i - 1) (j - 1).
Proof.
  intros Hi Hj. unfold prefix_sum, cell_sum.
  induction pts as [| p pts IH]; [reflexivity | ].
  rewrite !rect_sum_cons, IH.
  clear IH. split_inside.
Qed.

(** Inclusion and exclusion: the four prefix sums of a window. *)
Lemma prefix_sum_window (pts : list point) (m i j : Z) :
  0 <= m <= i -> m <= j ->
  prefix_sum pts i j - prefix_sum pts (i - m) j - prefix_sum pts i (j - m)
  + prefix_sum pts (i - m) (j - m)
  = window_sum pts m i j.
Proof.
  intros Hi Hj. unfold prefix_sum, window_sum.
  induction pts as [| p pts IH]; [reflexivity | ].
  rewrite !rect_sum_cons, <- IH. clear IH.
  split_inside.
Qed.

Lemma rect_sum_none (pts : list point) (x0 x1 y0 y1 : Z) :
  (forall p, In p pts -> inside x0 x1 y0 y1 p = false) ->
  rect_sum pts x0 x1 y0 y1 = 0.
Proof.
  induction pts as [| p pts IH]; intros H; [reflexivity | ].
  rewrite rect_sum_cons, (H p) by now left.
  rewrite IH; [reflexivity | ]. intros q Hq. apply H. now right.
Qed.

Lemma rect_sum_all (pts : list point) (x0 x1 y0 y1 : Z) :
  (forall p, In p pts -> inside x0 x1 y0 y1 p = true) ->
  rect_sum pts x0 x1 y0 y1 = sum_values pts.
Proof.
  induction pts as [| p pts IH]; intros H; [reflexivity | ].
  rewrite rect_sum_cons, (H p) by now left.
  rewrite IH; [reflexivity | ]. intros q Hq. apply H. now right.
Qed.

Lemma prefix_sum_border (pts : list point) (i j : Z) :
  i <= 0 \/ j <= 0 -> prefix_sum pts i j = 0.
Proof.
  intros H. apply rect_sum_none. intros p _.
  destruct (inside 0 (i - 1) 0 (j - 1) p) eqn:E; [ | reflexivity].
  apply inside_spec in E. lia.
Qed.

Lemma cell_sum_border (d : Z) (pts : list point) (x y : Z) :
  valid_points d pts -> x < 0 \/ y < 0 -> cell_sum pts x y = 0.
Proof.
  intros Hv H. apply rect_sum_none. intros p Hp.
  destruct (inside x x y y p) eqn:E; [ | reflexivity].
  apply inside_spec in E.
  unfold valid_points in Hv. rewrite Forall_forall in Hv.
  specialize (Hv p Hp). unfold valid_point in Hv. lia.
Qed.

Lemma sum_abs_nonneg (pts : list point) : 0 <= sum_abs pts.
Proof. induction pts as [| p pts IH]; simpl; lia. Qed.

Lemma rect_sum_abs (pts : list point) (x0 x1 y0 y1 : Z) :
  Z.abs (rect_sum pts x0 x1 y0 y1) <= sum_abs pts.
Proof.
  induction pts as [| p pts IH]; [simpl; unfold rect_sum; simpl; lia | ].
  rewrite rect_sum_cons. simpl.
  destruct (inside x0 x1 y0 y1 p); lia.
Qed.

Lemma rect_sum_fits (pts : list point) (x0 x1 y0 y1 : Z) :
  sum_abs pts <= int_max -> wrap (rect_sum pts x0 x1 y0 y1) = rect_sum pts x0 x1 y0 y1.
Proof.
  intros H. apply wrap_small. pose proof (rect_sum_abs pts x0 x1 y0 y1).
  unfold int_min, int_max in *. lia.
Qed.

Lemma sum_abs_nonneg_values (pts : list point) :
  nonneg_values pts -> sum_abs pts = sum_values pts.
Proof.
  induction 1 as [| p pts Hp _ IH]; [reflexivity | ].
  simpl. rewrite IH. lia.
Qed.

Lemma rect_sum_nonneg (pts : list point) (x0 x1 y0 y1 : Z) :
  nonneg_values pts -> 0 <= rect_sum pts x0 x1 y0 y1.
Proof.
  induction 1 as [| p pts Hp _ IH]; [unfold rect_sum; simpl; lia | ].
  rewrite rect_sum_cons. destruct (inside x0 x1 y0 y1 p); lia.
Qed.

(** A rectangle that captures more points sums to more, for values that
    are not negative. *)
Lemma rect_sum_mono (pts : list point) (x0 x1 y0 y1 x0' x1' y0' y1' : Z) :
  nonneg_values pts ->
  x0' <= x0 -> x1 <= x1' -> y0' <= y0 -> y1 <= y1' ->
  rect_sum pts x0 x1 y0 y1 <= rect_sum pts x0' x1' y0' y1'.
Proof.
  intros Hn Hx0 Hx1 Hy0 Hy1.
  induction Hn as [| p pts Hp _ IH]; [unfold rect_sum; simpl; lia | ].
  rewrite !rect_sum_cons.
  destruct (inside x0 x1 y0 y1 p) eqn:E.
  - apply inside_spec in E.
    assert (inside x0' x1' y0' y1' p = true) as -> by (apply inside_spec; lia).
    lia.
  - destruct (inside x0' x1' y0' y1' p); lia.
Qed.

(** ** Reads and writes of the table *)

Lemma in_bounds_spec (d i j : Z) :
  in_bounds d i j = true <-> 0 <= i < d /\ 0 <= j < d.
Proof.
  unfold in_bounds. rewrite !andb_true_iff, !Z.leb_le, !Z.ltb_lt. lia.
Qed.

Lemma in_bounds_false (d i j : Z) :
  in_bounds d i j = false <-> ~ (0 <= i < d /\ 0 <= j < d).
Proof.
  rewrite <- in_bounds_spec. destruct (in_bounds d i j); intuition congruence.
Qed.

Lemma rd_in (d : Z) (s : grid) (i j : Z) :
  0 <= i < d -> 0 <= j < d -> rd d s i j = Some (s i j).
Proof.
  intros Hi Hj. unfold rd.
  now rewrite (proj2 (in_bounds_spec d i j) (conj Hi Hj)).
Qed.

Lemma wr_in (d : Z) (s : grid) (i j v : Z) :
  0 <= i < d -> 0 <= j < d -> wr d s i j v = Some (upd s i j v).
Proof.
  intros Hi Hj. unfold wr.
  now rewrite (proj2 (in_bounds_spec d i j) (conj Hi Hj)).
Qed.

Lemma upd_same (s : grid) (a b v : Z) : upd s a b v a b = v.
Proof. unfold upd. now rewrite !Z.eqb_refl. Qed.

Lemma upd_other (s : grid) (a b v i j : Z) :
  i <> a \/ j <> b -> upd s a b v i j = s i j.
Proof.
  intros H. unfold upd.
  destruct (Z.eqb_spec i a), (Z.eqb_spec j b); simpl; try reflexivity. lia.
Qed.

(** ** Ingestion *)

Lemma ingest_point_writable (d : Z) (s : grid) (p : point) :
  writable d p ->
  ingest_point d s p
  = Some (upd s (px p + 1) (py p + 1) (add32 (s (px p + 1) (py p + 1)) (pv p))).
Proof.
  intros [Hx Hy]. unfold ingest_point.
  rewrite rd_in by lia. simpl. now rewrite wr_in by lia.
Qed.

Lemma ingest_point_outside (d : Z) (s : grid) (p : point) :
  ~ writable d p -> ingest_point d s p = None.
Proof.
  intros H. unfold ingest_point, rd.
  assert (in_bounds d (px p + 1) (py p + 1) = false) as ->; [ | reflexivity].
  apply in_bounds_false. unfold writable in H. lia.
Qed.

Lemma writable_dec (d : Z) (p : point) : {writable d p} + {~ writable d p}.
Proof.
  unfold writable.
  destruct (Z_le_dec (-1) (px p)), (Z_le_dec (px p) (d - 2)),
    (Z_le_dec (-1) (py p)), (Z_le_dec (py p) (d - 2));
    (left; lia) || (right; lia).
Qed.

(** Ingestion fails exactly when some point is written outside the table. *)
Lemma ingest_from_none (d : Z) (pts : list point) :
  forall s, ingest_from d pts s = None <-> Exists (fun p => ~ writable d p) pts.
Proof.
  induction pts as [| p pts IH]; intros s; simpl.
  - split; [discriminate | intros H; inversion H].
  - destruct (writable_dec d p) as [Hw | Hw].
    + rewrite (ingest_point_writable d s p Hw). simpl. rewrite IH.
      split; [now right | ]. intros H. inversion H; subst; [contradiction | assumption].
    + rewrite (ingest_point_outside d s p Hw). simpl.
      split; [now left | reflexivity].
Qed.

(** After ingestion every cell went up by the values of the points of its
    coordinate, in [int] arithmetic. *)
Lemma ingest_from_cells (d : Z) (pts : list point) :
  forall s,
    Forall (writable d) pts ->
    (forall a b, wrap (s a b) = s a b) ->
    exists raw,
      ingest_from d pts s = Some raw /\
      forall a b, raw a b = wrap (s a b + cell_sum pts (a - 1) (b - 1)).
Proof.
  induction pts as [| p pts IH]; intros s Hw Hs.
  - exists s. split; [reflexivity | ]. intros a b.
    unfold cell_sum, rect_sum. simpl. now rewrite Z.add_0_r, Hs.
  - inversion Hw as [| ? ? Hp Hrest]; subst.
    simpl. rewrite (ingest_point_writable d s p Hp). simpl.
    destruct (IH (upd s (px p + 1) (py p + 1)
                    (add32 (s (px p + 1) (py p + 1)) (pv p))) Hrest)
      as [raw [Hr Hcells]].
    + intros a b. unfold upd.
      destruct ((a =? px p + 1) && (b =? py p + 1)); [apply wrap_wrap | apply Hs].
    + exists raw. split; [exact Hr | ]. intros a b. rewrite Hcells.
      unfold cell_sum. rewrite rect_sum_cons.
      destruct (inside (a - 1) (a - 1) (b - 1) (b - 1) p) eqn:E.
      * apply inside_spec in E.
        replace a with (px p + 1) by lia. replace b with (py p + 1) by lia.
        rewrite upd_same. unfold add32. apply wrap_eqm.
        rewrite wrap_eqm_self.
        replace (px p + 1 - 1) with (px p) by lia.
        replace (py p + 1 - 1) with (py p) by lia.
        exists 0. lia.
      * rewrite upd_other; [reflexivity | ].
        destruct (Z.eq_dec a (px p + 1)) as [-> | ?]; [ | now left].
        destruct (Z.eq_dec b (py p + 1)) as [-> | ?]; [ | now right].
        exfalso. assert (inside (px p + 1 - 1) (px p + 1 - 1)
                           (py p + 1 - 1) (py p + 1 - 1) p = true)
          by (apply inside_spec; lia). congruence.
Qed.

Lemma valid_writable (d : Z) (pts : list point) :
  valid_points d pts -> Forall (writable d) pts.
Proof.
  unfold valid_points. apply Forall_impl. unfold valid_point, writable. lia.
Qed.

Lemma ingest_from_zero (d : Z) (pts : list point) :
  Forall (writable d) pts ->
  exists raw,
    ingest_from d pts zero_grid = Some raw /\
    forall a b, raw a b = wrap (cell_sum pts (a - 1) (b - 1)).
Proof.
  intros Hw.
  destruct (ingest_from_cells d pts zero_grid Hw) as [raw [Hr Hc]]; [reflexivity | ].
  exists raw. split; [exact Hr | ]. intros a b. now rewrite Hc.
Qed.

(** ** Building the prefix sums *)

Section Build.

Variable d : Z.
Variable pts : list point.
Variable raw : grid.

Hypothesis d_pos : 1 <= d.
Hypothesis pts_valid : valid_points d pts.
Hypothesis raw_cells : forall a b, raw a b = wrap (cell_sum pts (a - 1) (b - 1)).

Lemma raw_border (a b : Z) :
  a <= 0 \/ b <= 0 -> raw a b = wrap (prefix_sum pts a b).
Proof.
  intros H. rewrite raw_cells, prefix_sum_border by assumption.
  now rewrite (cell_sum_border d) by (assumption || lia).
Qed.

(** A cell above or left of the loops' position holds its prefix sum. *)
Lemma build_inv_read (i j : Z) (s : grid) (a b : Z) :
  build_inv d pts raw i j s -> 0 <= a -> 0 <= b < d -> a < i \/ (a = i /\ b < j) ->
  s a b = wrap (prefix_sum pts a b).
Proof.
  intros Hinv Ha Hb Hlt.
  destruct (Z.eq_dec a 0) as [-> | Ha0].
  - rewrite (proj2 (Hinv 0 b)) by (unfold built; lia). apply raw_border. lia.
  - destruct (Z.eq_dec b 0) as [-> | Hb0].
    + rewrite (proj2 (Hinv a 0)) by (unfold built; lia). apply raw_border. lia.
    + apply (proj1 (Hinv a b)). unfold built. lia.
Qed.

Lemma build_cell_inv (i j : Z) (s : grid) :
  1 <= i < d -> 1 <= j < d -> build_inv d pts raw i j s ->
  exists s', build_cell d i j s = Some s' /\ build_inv d pts raw i (j + 1) s'.
Proof.
  intros Hi Hj Hinv. unfold build_cell.
  rewrite !rd_in by lia. simpl. rewrite wr_in by lia.
  eexists. split; [reflexivity | ].
  rewrite (build_inv_read i j s (i - 1) j Hinv) by lia.
  rewrite (build_inv_read i j s i (j - 1) Hinv) by lia.
  rewrite (build_inv_read i j s (i - 1) (j - 1) Hinv) by lia.
  rewrite (proj2 (Hinv i j)) by (unfold built; lia).
  rewrite raw_cells, build_value, <- prefix_sum_rec by lia.
  intros a b.
  destruct (Z.eq_dec a i) as [-> | Ha]; [destruct (Z.eq_dec b j) as [-> | Hb] | ].
  - rewrite upd_same. split; [reflexivity | ]. unfold built. lia.
  - rewrite upd_other by now right. split; intros H.
    + apply (proj1 (Hinv i b)). unfold built in *. lia.
    + apply (proj2 (Hinv i b)). unfold built in *. lia.
  - rewrite upd_other by now left. split; intros H.
    + apply (proj1 (Hinv a b)). unfold built in *. lia.
    + apply (proj2 (Hinv a b)). unfold built in *. lia.
Qed.

Lemma build_row_inv (i : Z) (s : grid) :
  1 <= i < d -> build_inv d pts raw i 1 s ->
  exists s', build_row d i s = Some s' /\ build_inv d pts raw (i + 1) 1 s'.
Proof.
  intros Hi Hinv. unfold build_row.
  destruct (for_range_inv (build_inv d pts raw i) 1 d (build_cell d i) s Hinv)
    as [s' [Hs' Hinv']].
  - intros j s0 Hj. now apply build_cell_inv.
  - exists s'. split; [exact Hs' | ].
    replace (Z.max 1 d) with d in Hinv' by lia.
    intros a b. split; intros H.
    + apply (proj1 (Hinv' a b)). unfold built in *. lia.
    + apply (proj2 (Hinv' a b)). unfold built in *. lia.
Qed.

(** The table that [buildPrefixSums] leaves: a prefix sum in every cell. *)
Lemma build_from_table :
  exists table,
    build_from d raw = Some table /\
    (forall a b, 0 <= a < d -> 0 <= b < d -> table a b = wrap (prefix_sum pts a b)) /\
    (forall a b, a <= 0 \/ b <= 0 -> table a b = 0).
Proof.
  unfold build_from.
  destruct (for_range_inv (fun i => build_inv d pts raw i 1) 1 d (build_row d) raw)
    as [table [Ht Hinv]].
  - intros a b. split; [ | reflexivity]. unfold built. lia.
  - intros i s Hi. now apply build_row_inv.
  - exists table. split; [exact Ht | ].
    replace (Z.max 1 d) with d in Hinv by lia. split.
    + intros a b Ha Hb. apply (build_inv_read d 1 table a b Hinv); lia.
    + intros a b H. rewrite (proj2 (Hinv a b)) by (unfold built; lia).
      rewrite raw_border, prefix_sum_border by assumption. reflexivity.
Qed.

End Build.

(** ** Scanning the windows *)

Section Scan.

Variable d : Z.
Variable s : grid.
Variable m : Z.

(** The value of every window's query. *)
Variable f : Z -> Z -> Z.

Hypothesis query_f :
  forall i j, window d m i j -> window_query d s m i j = Some (f i j).

Lemma scan_cell_inv (i j ans : Z) :
  m <= i < d -> m <= j < d -> floor_max (scanned d m i j) f ans ->
  exists ans', scan_cell d s m i j ans = Some ans' /\
               floor_max (scanned d m i (j + 1)) f ans'.
Proof.
  intros Hi Hj Hinv. unfold scan_cell.
  rewrite query_f by (unfold window; lia). simpl.
  eexists. split; [reflexivity | ].
  apply (floor_max_step (scanned d m i j)); [ | assumption].
  intros a b. unfold scanned. lia.
Qed.

Lemma scan_row_inv (i ans : Z) :
  m <= i < d -> floor_max (scanned d m i m) f ans ->
  exists ans', scan_row d s m i ans = Some ans' /\
               floor_max (scanned d m (i + 1) m) f ans'.
Proof.
  intros Hi Hinv. unfold scan_row.
  destruct (for_range_inv (fun j => floor_max (scanned d m i j) f) m d
              (scan_cell d s m i) ans Hinv) as [ans' [Ha Hinv']].
  - intros j a Hj. now apply scan_cell_inv.
  - exists ans'. split; [exact Ha | ].
    apply (floor_max_ext (scanned d m i (Z.max m d)) _ f f); [ | reflexivity | assumption].
    intros a b. unfold scanned. lia.
Qed.

(** The scan ends with the maximum of the queries, floored at 0. *)
Lemma scan_from_floor_max :
  exists r, scan_from d s m = Some r /\ floor_max (window d m) f r.
Proof.
  unfold scan_from.
  destruct (for_range_inv (fun i => floor_max (scanned d m i m) f) m d
              (scan_row d s m) 0) as [r [Hr Hinv]].
  - apply floor_max_none. intros i j. unfold scanned. lia.
  - intros i a Hi. now apply scan_row_inv.
  - exists r. split; [exact Hr | ].
    apply (floor_max_ext (scanned d m (Z.max m d) m) _ f f); [ | reflexivity | assumption].
    intros a b. unfold scanned, window. lia.
Qed.

End Scan.

(** ** The three phases together *)

(** What ingestion and the build leave in the table, for points that are
    all at valid coordinates. *)
Lemma pipeline_tables (d : Z) (pts : list point) :
  1 <= d -> valid_points d pts ->
  exists raw table,
    ingest_from d pts zero_grid = Some raw /\
    build_from d raw = Some table /\
    (forall a b, raw a b = wrap (cell_sum pts (a - 1) (b - 1))) /\
    (forall a b, 0 <= a < d -> 0 <= b < d ->
                 table a b = wrap (prefix_sum pts a b)) /\
    (forall a b, a <= 0 \/ b <= 0 -> table a b = 0).
Proof.
  intros Hd Hv.
  destruct (ingest_from_zero d pts (valid_writable d pts Hv)) as [raw [Hr Hc]].
  destruct (build_from_table d pts raw Hd Hv Hc) as [table [Ht [Hp Hb]]].
  exists raw, table. repeat split; assumption.
Qed.

(** A query on the built table is the window's direct sum, wrapped once. *)
Lemma table_query (d : Z) (pts : list point) (table : grid) (m i j : Z) :
  (forall a b, 0 <= a < d -> 0 <= b < d ->
               table a b = wrap (prefix_sum pts a b)) ->
  0 <= m -> window d m i j ->
  window_query d table m i j = Some (wrap (window_sum pts m i j)).
Proof.
  intros Ht Hm [Hi Hj]. unfold window_query.
  rewrite !rd_in by lia. simpl.
  rewrite !Ht by lia. rewrite query_value.
  now rewrite prefix_sum_window by lia.
Qed.

(** The program's answer: the maximum, floored at 0, of the wrapped direct
    sums of the windows. *)
Lemma run_floor_max (d m : Z) (pts : list point) :
  1 <= d -> valid_points d pts -> 0 <= m ->
  exists r,
    run d m pts = Some r /\
    floor_max (window d m) (fun i j => wrap (window_sum pts m i j)) r.
Proof.
  intros Hd Hv Hm.
  destruct (pipeline_tables d pts Hd Hv) as (raw & table & Hr & Ht & _ & Hp & _).
  destruct (scan_from_floor_max d table m
              (fun i j => wrap (window_sum pts m i j))) as [r [Hs Hfm]].
  - intros i j Hw. now apply (table_query d pts).
  - exists r. split; [ | exact Hfm].
    unfold run. rewrite Hr. simpl. rewrite Ht. simpl. exact Hs.
Qed.

(** The same without the wrap, when no window's sum leaves the [int]s. *)
Lemma run_floor_max_exact (d m : Z) (pts : list point) :
  1 <= d -> valid_points d pts -> 0 <= m ->
  (forall i j, window d m i j -> int_min <= window_sum pts m i j <= int_max) ->
  exists r,
    run d m pts = Some r /\ floor_max (window d m) (window_sum pts m) r.
Proof.
  intros Hd Hv Hm Hfit.
  destruct (run_floor_max d m pts Hd Hv Hm) as [r [Hr Hfm]].
  exists r. split; [exact Hr | ].
  apply (floor_max_ext (window d m) (window d m)
           (fun i j => wrap (window_sum pts m i j))); [reflexivity | | exact Hfm].
  intros i j Hw. apply wrap_small. now apply Hfit.
Qed.

Lemma window_sum_fits (pts : list point) (m i j : Z) :
  sum_abs pts <= int_max -> int_min <= window_sum pts m i j <= int_max.
Proof.
  intros H. unfold window_sum.
  pose proof (rect_sum_abs pts (i - m) (i - 1) (j - m) (j - 1)).
  unfold int_min, int_max in *. lia.
Qed.

(** ** The brute force *)

Lemma in_zrange (lo hi k : Z) : In k (zrange lo hi) <-> lo <= k < hi.
Proof.
  unfold zrange. rewrite in_map_iff. split.
  - intros [n [<- Hn]]. apply in_seq in Hn. lia.
  - intros H. exists (Z.to_nat (k - lo)). split; [lia | ].
    apply in_seq. lia.
Qed.

Lemma fold_left_max (l : list Z) :
  forall a,
    a <= fold_left Z.max l a /\
    (forall x, In x l -> x <= fold_left Z.max l a) /\
    (fold_left Z.max l a = a \/ In (fold_left Z.max l a) l).
Proof.
  induction l as [| y l IH]; intros a; simpl.
  - split; [lia | split; [intros x [] | now left]].
  - destruct (IH (Z.max a y)) as (Hge & Hub & Hat).
    split; [lia | split].
    + intros x [<- | Hx]; [lia | now apply Hub].
    + destruct Hat as [Heq | Hin]; [ | right; now right].
      rewrite Heq. destruct (Z.max_spec a y) as [[_ ->] | [_ ->]];
        [right; now left | now left].
Qed.

(** The brute force is the maximum, floored at 0, of the direct sums. *)
Lemma bruteForce_floor_max (d m : Z) (pts : list point) :
  floor_max (window d m) (window_sum pts m) (bruteForce d m pts).
Proof.
  unfold bruteForce.
  set (l := flat_map _ _).
  assert (Hl : forall x, In x l <->
                         exists i j, window d m i j /\ window_sum pts m i j = x).
  { intros x. unfold l. rewrite in_flat_map. split.
    - intros (i & Hi & Hx). apply in_map_iff in Hx. destruct Hx as (j & Hx & Hj).
      apply in_zrange in Hi. apply in_zrange in Hj.
      exists i, j. split; [split; assumption | exact Hx].
    - intros (i & j & [Hi Hj] & Hx). exists i. split; [now apply in_zrange | ].
      apply in_map_iff. exists j. split; [exact Hx | now apply in_zrange]. }
  destruct (fold_left_max l 0) as (Hge & Hub & Hat).
  split; [exact Hge | split].
  - intros i j Hw. apply Hub, Hl. now exists i, j.
  - destruct Hat as [Heq | Hin]; [now left | right]. now apply Hl.
Qed.

(** The program computes what the brute force computes. *)
Lemma run_bruteForce (d m : Z) (pts : list point) :
  1 <= d -> valid_points d pts -> 0 <= m ->
  (forall i j, window d m i j -> int_min <= window_sum pts m i j <= int_max) ->
  run d m pts = Some (bruteForce d m pts).
Proof.
  intros Hd Hv Hm Hfit.
  destruct (run_floor_max_exact d m pts Hd Hv Hm Hfit) as [r [Hr Hfm]].
  rewrite Hr. f_equal.
  apply (floor_max_unique _ _ _ _ Hfm), bruteForce_floor_max.
Qed.

(** ** Consequences used by the properties below *)

Lemma floor_max_value (W : Z -> Z -> Prop) (f : Z -> Z -> Z) (r v : Z) :
  floor_max W f r ->
  0 <= v -> (forall i j, W i j -> f i j <= v) ->
  (v = 0 \/ exists i j, W i j /\ f i j = v) ->
  r = v.
Proof.
  intros Hr H0 Hub Hat. apply (floor_max_unique W f); [assumption | ].
  split; [assumption | split; assumption].
Qed.

Lemma floor_max_shift (W : Z -> Z -> Prop) (f : Z -> Z -> Z) (r : Z) :
  floor_max (fun i j => W (i - 1) (j - 1)) (fun i j => f (i - 1) (j - 1)) r ->
  floor_max W f r.
Proof.
  intros (H0 & Hub & Hat). split; [assumption | split].
  - intros x y Hw. specialize (Hub (x + 1) (y + 1)).
    replace (x + 1 - 1) with x in Hub by lia.
    replace (y + 1 - 1) with y in Hub by lia. now apply Hub.
  - destruct Hat as [-> | (i & j & Hw & Hf)]; [now left | right].
    now exists (i - 1), (j - 1).
Qed.

Lemma window_query_value (d : Z) (s : grid) (m i j : Z) :
  0 <= m -> window d m i j ->
  window_query d s m i j = Some (window_value s m i j).
Proof.
  intros Hm [Hi Hj]. unfold window_query.
  rewrite !rd_in by lia. reflexivity.
Qed.

Lemma MAXC_eq : MAXC = 5005.
Proof. reflexivity. Qed.

Lemma C_eq : C = 5004.
Proof. reflexivity. Qed.

Lemma main_floor_max (m : Z) (pts : list point) :
  valid_points MAXC pts -> 0 <= m ->
  (forall i j, window MAXC m i j -> int_min <= window_sum pts m i j <= int_max) ->
  exists r, main m pts = Some r /\ floor_max (window MAXC m) (window_sum pts m) r.
Proof.
  intros Hv Hm Hfit. apply run_floor_max_exact; try assumption.
  rewrite MAXC_eq. lia.
Qed.

(** The answer is [v] as soon as [v] bounds every window and is 0 or some
    window's sum. *)
Lemma main_value (m : Z) (pts : list point) (v : Z) :
  valid_points MAXC pts -> 0 <= m -> sum_abs pts <= int_max ->
  0 <= v ->
  (forall i j, window MAXC m i j -> window_sum pts m i j <= v) ->
  (v = 0 \/ exists i j, window MAXC m i j /\ window_sum pts m i j = v) ->
  main m pts = Some v.
Proof.
  intros Hv Hm Hfit H0 Hub Hat.
  destruct (main_floor_max m pts Hv Hm) as [r [Hr Hfm]].
  - intros i j _. now apply window_sum_fits.
  - rewrite Hr. f_equal. now apply (floor_max_value _ _ _ _ Hfm).
Qed.

Ltac valid_list :=
  repeat (apply Forall_cons; [unfold valid_point, writable; simpl; rewrite ?MAXC_eq; lia | ]);
  apply Forall_nil.

Ltac window_cases :=
  unfold window_sum, cell_sum; rewrite ?rect_sum_cons;
  unfold rect_sum, sum_values, filter, fold_right; split_inside.

(** The same when sums may leave the [int]s: the answer is [v] as soon as
    [v] bounds every window's wrapped sum and is 0 or one of them. *)
Lemma main_value_wrapped (m : Z) (pts : list point) (v : Z) :
  valid_points MAXC pts -> 0 <= m ->
  0 <= v ->
  (forall i j, window MAXC m i j -> wrap (window_sum pts m i j) <= v) ->
  (v = 0 \/ exists i j, window MAXC m i j /\ wrap (window_sum pts m i j) = v) ->
  main m pts = Some v.
Proof.
  intros Hv Hm H0 Hub Hat.
  destruct (run_floor_max MAXC m pts) as [r [Hr Hfm]];
    [rewrite MAXC_eq; lia | exact Hv | exact Hm | ].
  unfold main. rewrite Hr. f_equal.
  now apply (floor_max_value _ _ _ _ Hfm).
Qed.

Lemma cell_sum_fits (pts : list point) (x y : Z) :
  sum_abs pts <= int_max -> int_min <= cell_sum pts x y <= int_max.
Proof.
  intros H. unfold cell_sum. pose proof (rect_sum_abs pts x x y y).
  unfold int_min, int_max in *. lia.
Qed.

Ltac wrapped_cases :=
  unfold window_sum, cell_sum; rewrite ?rect_sum_cons;
  unfold rect_sum, sum_values, filter, fold_right;
  unfold inside; cbn [px py pv];
  repeat match goal with
         | |- context [?a <=? ?b] => destruct (Z.leb_spec a b)
         end;
  cbn [andb]; first [lia | vm_compute; discriminate | vm_compute; split; discriminate].

(** The two points of one coordinate, side 1. *)
Lemma main_same_cell :
  main 1 [mkPoint 3 3 5; mkPoint 3 3 7] = Some 12.
Proof.
  apply main_value.
  - unfold valid_points. valid_list.
  - lia.
  - vm_compute. discriminate.
  - lia.
  - intros i j _. window_cases.
  - right. exists 4, 4. split; [unfold window; rewrite MAXC_eq; lia | reflexivity].
Qed.

(** Reading the tokens of [n] points gives back the points. *)
Lemma read_points_tokens (pts : list point) (rest : list Z) :
  read_points (length pts) (tokens_of pts ++ rest) = Some pts.
Proof.
  induction pts as [| [x y v] pts IH]; [reflexivity | ].
  simpl. now rewrite IH.
Qed.

Lemma main_stdin_points (m : Z) (pts : list point) (rest : list Z) :
  main_stdin (Z.of_nat (length pts) :: m :: tokens_of pts ++ rest) = main m pts.
Proof.
  unfold main_stdin. now rewrite Nat2Z.id, read_points_tokens.
Qed.

(** * The properties of the specification *)

(** ** C1: the program against the brute force *)

(** C1, as stated, fails twice. A single point of value -1 lies in every
    window of side 5000, so the maximum of the window sums is -1, and the
    program prints 0, the value [ans] starts with. And a point at the
    coordinate [C] is written to [s[C + 1][..]], outside the table. *)
Lemma C1_floor_and_bound_counterexample :
  (valid_points MAXC [mkPoint 10 10 (-1)] /\
   1 <= 5000 <= C /\
   main 5000 [mkPoint 10 10 (-1)] = Some 0 /\
   is_max (window MAXC 5000) (window_sum [mkPoint 10 10 (-1)] 5000) (-1)) /\
  (0 <= px (mkPoint C 0 1) <= C /\ 0 <= py (mkPoint C 0 1) <= C /\
   main 1 [mkPoint C 0 1] = None).
Proof.
  assert (Hsum : forall i j, window MAXC 5000 i j ->
                             window_sum [mkPoint 10 10 (-1)] 5000 i j = -1).
  { intros i j [Hi Hj]. rewrite MAXC_eq in Hi, Hj. window_cases. }
  split; [split; [ | split; [ | split]] | ].
  - unfold valid_points. valid_list.
  - rewrite C_eq. lia.
  - apply main_value.
    + unfold valid_points. valid_list.
    + lia.
    + vm_compute. discriminate.
    + lia.
    + intros i j Hw. rewrite (Hsum i j Hw). lia.
    + now left.
  - split.
    + exists 5000, 5000. split; [unfold window; rewrite MAXC_eq; lia | ].
      apply Hsum. unfold window. rewrite MAXC_eq. lia.
    + intros i j Hw. rewrite (Hsum i j Hw). lia.
  - rewrite C_eq. cbn [px py]. split; [lia | split; [lia | reflexivity]].
Qed.

(** C1, amended: for points at coordinates in [0, C-1], a side
    [1 <= m <= C] and window sums that fit an [int], the program prints
    what the brute force over all windows computes: the maximum of the
    windows' direct sums, floored at 0. For values that are not negative
    this is the maximum itself. *)
Theorem C1_main_equals_bruteForce (m : Z) (pts : list point) :
  valid_points MAXC pts ->
  1 <= m <= C ->
  (forall i j, window MAXC m i j -> int_min <= window_sum pts m i j <= int_max) ->
  main m pts = Some (bruteForce MAXC m pts) /\
  floor_max (window MAXC m) (window_sum pts m) (bruteForce MAXC m pts) /\
  (nonneg_values pts ->
   is_max (window MAXC m) (window_sum pts m) (bruteForce MAXC m pts)).
Proof.
  intros Hv Hm Hfit. rewrite C_eq in Hm.
  pose proof (bruteForce_floor_max MAXC m pts) as Hfm.
  split; [ | split; [exact Hfm | ]].
  - apply run_bruteForce; try assumption; rewrite ?MAXC_eq; lia.
  - intros Hn. destruct Hfm as (H0 & Hub & Hat). split; [ | exact Hub].
    destruct Hat as [Hz | Hex]; [ | exact Hex].
    exists m, m.
    assert (Hw : window MAXC m m m) by (unfold window; rewrite MAXC_eq; lia).
    split; [exact Hw | ].
    specialize (Hub m m Hw).
    pose proof (rect_sum_nonneg pts (m - m) (m - 1) (m - m) (m - 1) Hn) as Hge.
    unfold window_sum in *. lia.
Qed.

Lemma C1_main_equals_bruteForce_witness :
  main 1 [mkPoint 0 0 1; mkPoint 1 1 1]
  = Some (bruteForce MAXC 1 [mkPoint 0 0 1; mkPoint 1 1 1]).
Proof.
  apply (C1_main_equals_bruteForce 1 [mkPoint 0 0 1; mkPoint 1 1 1]).
  - unfold valid_points. valid_list.
  - rewrite C_eq. lia.
  - intros i j _. apply window_sum_fits. vm_compute. discriminate.
Defined.

(** ** C2: the invariant of the built table *)

(** C2: after [buildPrefixSums] every cell with [i, j >= 1] satisfies the
    recurrence over the built table and the ingested one, row 0 and
    column 0 are zero, and each cell holds the sum of the values of the
    points with [x <= i-1] and [y <= j-1]. *)
Theorem C2_prefix_table_invariant (pts : list point) :
  valid_points MAXC pts ->
  sum_abs pts <= int_max ->
  exists rawAccum table,
    ingest pts zero_grid = Some rawAccum /\
    buildPrefixSums rawAccum = Some table /\
    (forall i j, 1 <= i < MAXC -> 1 <= j < MAXC ->
       table i j
       = table (i - 1) j + table i (j - 1) - table (i - 1) (j - 1)
         + rawAccum i j) /\
    (forall k, 0 <= k < MAXC -> table 0 k = 0 /\ table k 0 = 0) /\
    (forall i j, 0 <= i < MAXC -> 0 <= j < MAXC ->
       table i j = prefix_sum pts i j).
Proof.
  intros Hv Hfit.
  destruct (pipeline_tables MAXC pts) as (raw & table & Hr & Ht & Hc & Hp & Hb);
    [rewrite MAXC_eq; lia | assumption | ].
  assert (Hp' : forall i j, 0 <= i < MAXC -> 0 <= j < MAXC ->
                            table i j = prefix_sum pts i j).
  { intros i j Hi Hj. rewrite Hp by assumption. now apply rect_sum_fits. }
  exists raw, table.
  split; [exact Hr | split; [exact Ht | split; [ | split; [ | exact Hp']]]].
  - intros i j Hi Hj.
    rewrite !Hp' by lia. rewrite Hc.
    unfold cell_sum. rewrite rect_sum_fits by assumption.
    apply prefix_sum_rec; lia.
  - intros k Hk. split; apply Hb; [now left | now right].
Qed.

Lemma C2_prefix_table_invariant_witness :
  exists rawAccum table,
    ingest [mkPoint 0 0 1; mkPoint 1 1 1] zero_grid = Some rawAccum /\
    buildPrefixSums rawAccum = Some table /\
    (forall i j, 1 <= i < MAXC -> 1 <= j < MAXC ->
       table i j
       = table (i - 1) j + table i (j - 1) - table (i - 1) (j - 1)
         + rawAccum i j) /\
    (forall k, 0 <= k < MAXC -> table 0 k = 0 /\ table k 0 = 0) /\
    (forall i j, 0 <= i < MAXC -> 0 <= j < MAXC ->
       table i j = prefix_sum [mkPoint 0 0 1; mkPoint 1 1 1] i j).
Proof.
  apply (C2_prefix_table_invariant [mkPoint 0 0 1; mkPoint 1 1 1]).
  - unfold valid_points. valid_list.
  - vm_compute. discriminate.
Defined.

(** ** C3: a larger window captures no less *)

Lemma bind_some {A B : Type} (a : A) (k : A -> option B) :
  bind (Some a) k = k a.
Proof. reflexivity. Qed.

Lemma sum_values_nonneg (pts : list point) :
  nonneg_values pts -> 0 <= sum_values pts.
Proof.
  intros Hn. rewrite <- sum_abs_nonneg_values by assumption. apply sum_abs_nonneg.
Qed.




(** ** C4: the window that is the whole grid *)

(** C4, amended: for points at coordinates in [0, C-1] and values that are
    not negative and sum to at most [INT_MAX], the side [m = C] gives the
    sum of all the values. *)
Theorem C4_full_window_total (pts : list point) :
  valid_points MAXC pts ->
  nonneg_values pts ->
  sum_values pts <= int_max ->
  main C pts = Some (sum_values pts).
Proof.
  intros Hv Hn Hsum.
  assert (Hfit : sum_abs pts <= int_max) by now rewrite sum_abs_nonneg_values.
  assert (Hw : window MAXC C C C) by (unfold window; rewrite C_eq, MAXC_eq; lia).
  assert (Hall : forall i j, window MAXC C i j ->
                             window_sum pts C i j = sum_values pts).
  { intros i j [Hi Hj]. rewrite C_eq, MAXC_eq in *.
    unfold window_sum. apply rect_sum_all. intros p Hp.
    unfold valid_points in Hv. rewrite Forall_forall in Hv.
    specialize (Hv p Hp). unfold valid_point in Hv.
    apply inside_spec. lia. }
  apply main_value; try assumption.
  - rewrite C_eq. lia.
  - now apply sum_values_nonneg.
  - intros i j Hw'. rewrite (Hall i j Hw'). lia.
  - right. exists C, C. split; [exact Hw | now apply Hall].
Qed.

Lemma C4_full_window_total_witness :
  main C [mkPoint 0 0 1; mkPoint 5003 5003 4; mkPoint 0 0 2] = Some 7.
Proof.
  apply (C4_full_window_total [mkPoint 0 0 1; mkPoint 5003 5003 4; mkPoint 0 0 2]).
  - unfold valid_points. valid_list.
  - unfold nonneg_values.
    repeat (apply Forall_cons; [cbn [pv]; lia | ]). apply Forall_nil.
  - vm_compute. discriminate.
Defined.

(** The side has to be [C] itself: a window of side 5000, the largest
    coordinate of the problem statement, cannot hold both corners of the
    coordinate range [0, 5000]. *)
Lemma side_5000_misses_a_corner :
  main 5000 [mkPoint 0 0 1; mkPoint 5000 5000 1] = Some 1.
Proof.
  apply main_value.
  - unfold valid_points. valid_list.
  - lia.
  - vm_compute. discriminate.
  - lia.
  - intros i j [Hi Hj]. rewrite MAXC_eq in Hi, Hj. window_cases.
  - right. exists 5000, 5000.
    split; [unfold window; rewrite MAXC_eq; lia | reflexivity].
Qed.

(** C4, as stated, fails on inputs with values that are not negative. A
    point at the coordinate [C] is written to [s[C + 1][..]], outside the
    table, and the program has no result. With the largest coordinate of
    the problem statement, 5000, as the side, the two corners [(0, 0)] and
    [(5000, 5000)] are never in one window: the answer is 1 and the sum 2.
    And two values that are [int]s and sum to [INT_MAX + 1] wrap around in
    their cell: the answer is 0. *)
Lemma C4_full_window_counterexample :
  (0 <= px (mkPoint C 0 1) <= C /\ 0 <= py (mkPoint C 0 1) <= C /\
   0 <= pv (mkPoint C 0 1) /\
   main C [mkPoint C 0 1] = None) /\
  (main 5000 [mkPoint 0 0 1; mkPoint 5000 5000 1] = Some 1 /\
   sum_values [mkPoint 0 0 1; mkPoint 5000 5000 1] = 2) /\
  (valid_points MAXC [mkPoint 0 0 2147483647; mkPoint 0 0 1] /\
   nonneg_values [mkPoint 0 0 2147483647; mkPoint 0 0 1] /\
   main C [mkPoint 0 0 2147483647; mkPoint 0 0 1] = Some 0 /\
   sum_values [mkPoint 0 0 2147483647; mkPoint 0 0 1] = 2147483648).
Proof.
  split; [ | split].
  - rewrite C_eq. cbn [px py pv].
    split; [lia | split; [lia | split; [lia | reflexivity]]].
  - split; [exact side_5000_misses_a_corner | reflexivity].
  - split; [unfold valid_points; valid_list | split; [ | split; [ | reflexivity]]].
    + unfold nonneg_values.
      repeat (apply Forall_cons; [cbn [pv]; lia | ]). apply Forall_nil.
    + apply main_value_wrapped.
      * unfold valid_points. valid_list.
      * rewrite C_eq. lia.
      * lia.
      * intros i j [Hi Hj]. rewrite C_eq, MAXC_eq in *. wrapped_cases.
      * now left.
Qed.

(** ** C5: points of one coordinate accumulate *)

(** C5: the two points [(3,3,5)] and [(3,3,7)] with side 1 give 12, and in
    general ingestion leaves in the cell of a coordinate the sum of the
    values of all the points there. *)
Theorem C5_same_coordinate_accumulates :
  main_stdin [2; 1; 3; 3; 5; 3; 3; 7] = Some 12 /\
  (forall pts,
     Forall (writable MAXC) pts -> sum_abs pts <= int_max ->
     exists rawAccum,
       ingest pts zero_grid = Some rawAccum /\
       forall x y, rawAccum (x + 1) (y + 1) = cell_sum pts x y).
Proof.
  split.
  { rewrite <- main_same_cell.
    exact (main_stdin_points 1 [mkPoint 3 3 5; mkPoint 3 3 7] []). }
  intros pts Hw Hfit.
  destruct (ingest_from_zero MAXC pts Hw) as [raw [Hr Hc]].
  exists raw. split; [exact Hr | ]. intros x y. rewrite Hc.
  replace (x + 1 - 1) with x by lia. replace (y + 1 - 1) with y by lia.
  now apply rect_sum_fits.
Qed.

Lemma C5_same_coordinate_accumulates_witness :
  exists rawAccum,
    ingest [mkPoint 3 3 5; mkPoint 3 3 7] zero_grid = Some rawAccum /\
    forall x y, rawAccum (x + 1) (y + 1)
                = cell_sum [mkPoint 3 3 5; mkPoint 3 3 7] x y.
Proof.
  apply (proj2 C5_same_coordinate_accumulates).
  - valid_list.
  - vm_compute. discriminate.
Defined.

(** ** C6: side 1 *)

(** C6, as stated, fails where two points share a coordinate: the answer
    is 12, the sum at the cell, and the largest single value is 7. When the
    sum at the cell leaves the [int]s it wraps around, and the answer is 0
    for the values [INT_MAX] and 1; and a point at the coordinate [C] is
    written outside the table. *)
Lemma C6_single_value_counterexample :
  main_stdin [2; 1; 3; 3; 5; 3; 3; 7] = Some 12 /\
  main 1 [mkPoint 3 3 5; mkPoint 3 3 7] = Some 12 /\
  max_value [mkPoint 3 3 5; mkPoint 3 3 7] = 7 /\
  (main 1 [mkPoint 0 0 2147483647; mkPoint 0 0 1] = Some 0 /\
   cell_sum [mkPoint 0 0 2147483647; mkPoint 0 0 1] 0 0 = 2147483648 /\
   max_value [mkPoint 0 0 2147483647; mkPoint 0 0 1] = 2147483647) /\
  (0 <= px (mkPoint C 0 1) <= C /\ 0 <= py (mkPoint C 0 1) <= C /\
   main 1 [mkPoint C 0 1] = None).
Proof.
  split; [ | split; [exact main_same_cell | split; [reflexivity | split]]].
  - rewrite <- main_same_cell.
    exact (main_stdin_points 1 [mkPoint 3 3 5; mkPoint 3 3 7] []).
  - split; [ | split; reflexivity].
    apply main_value_wrapped.
    + unfold valid_points. valid_list.
    + lia.
    + lia.
    + intros i j _. wrapped_cases.
    + now left.
  - rewrite C_eq. cbn [px py]. split; [lia | split; [lia | reflexivity]].
Qed.

Lemma max_value_spec (pts : list point) :
  0 <= max_value pts /\
  (forall p, In p pts -> pv p <= max_value pts) /\
  (max_value pts = 0 \/ exists p, In p pts /\ pv p = max_value pts).
Proof.
  induction pts as [| q pts (H0 & Hub & Hat)]; simpl.
  - split; [lia | split; [intros p [] | now left]].
  - split; [lia | split].
    + intros p [<- | Hp]; [lia | ]. specialize (Hub p Hp). lia.
    + destruct (Z.max_spec (pv q) (max_value pts)) as [[_ ->] | [_ ->]].
      * destruct Hat as [Hz | (p & Hp & Hv)]; [now left | right].
        exists p. split; [now right | exact Hv].
      * right. exists q. split; [now left | reflexivity].
Qed.

(** With pairwise distinct coordinates a cell holds no point or one. *)
Lemma cell_sum_nodup (pts : list point) (x y : Z) :
  NoDup (map coord pts) ->
  (cell_sum pts x y = 0 /\ forall p, In p pts -> coord p <> (x, y)) \/
  (exists p, In p pts /\ coord p = (x, y) /\ cell_sum pts x y = pv p).
Proof.
  induction pts as [| q pts IH]; intros Hnd.
  - left. split; [reflexivity | intros p []].
  - simpl in Hnd. inversion Hnd as [| ? ? Hnotin Hnd']; subst.
    unfold cell_sum in *. rewrite rect_sum_cons.
    destruct (inside x x y y q) eqn:E.
    + apply inside_spec in E.
      assert (Hq : coord q = (x, y)) by (unfold coord; f_equal; lia).
      right. exists q. split; [now left | split; [exact Hq | ]].
      destruct (IH Hnd') as [[Hz _] | (p & Hp & Hc & _)]; [lia | ].
      exfalso. apply Hnotin. rewrite Hq, <- Hc. now apply in_map.
    + assert (Hq : coord q <> (x, y)).
      { unfold coord. intros Heq. inversion Heq; subst.
        assert (inside (px q) (px q) (py q) (py q) q = true)
          by (apply inside_spec; lia). congruence. }
      destruct (IH Hnd') as [[Hz Hno] | (p & Hp & Hc & Hs)].
      * left. split; [lia | ]. intros p [<- | Hp]; [exact Hq | now apply Hno].
      * right. exists p. split; [now right | split; [exact Hc | lia]].
Qed.

(** Points of pairwise distinct coordinates are told apart by them. *)
Lemma coord_inj (pts : list point) :
  NoDup (map coord pts) ->
  forall a b, In a pts -> In b pts -> coord a = coord b -> a = b.
Proof.
  induction pts as [| c l IH]; intros Hnd; [intros a b [] | ].
  simpl in Hnd. inversion Hnd as [| ? ? Hnotin Hnd']; subst.
  intros a b [<- | Ha] [<- | Hb] Hab; try reflexivity.
  - exfalso. apply Hnotin. rewrite Hab. now apply in_map.
  - exfalso. apply Hnotin. rewrite <- Hab. now apply in_map.
  - now apply IH.
Qed.

Lemma cell_sum_of_point (pts : list point) (p : point) :
  NoDup (map coord pts) -> In p pts -> cell_sum pts (px p) (py p) = pv p.
Proof.
  intros Hnd Hp.
  destruct (cell_sum_nodup pts (px p) (py p) Hnd) as [[_ Hno] | (q & Hq & Hc & ->)].
  - exfalso. now apply (Hno p Hp).
  - f_equal. now apply (coord_inj pts Hnd).
Qed.

(** C6, amended: with side 1, for points at coordinates in [0, C-1] whose
    values sum, at every coordinate, to a number that fits an [int], the
    program prints the largest sum of values held at one coordinate,
    floored at 0; when no two points share a coordinate this is the largest
    single value, floored at 0, and 0 for no points. *)
Theorem C6_side_one_max_cell (pts : list point) :
  valid_points MAXC pts ->
  (forall x y, cell MAXC x y -> int_min <= cell_sum pts x y <= int_max) ->
  exists r,
    main 1 pts = Some r /\
    floor_max (cell MAXC) (cell_sum pts) r /\
    (NoDup (map coord pts) -> r = max_value pts) /\
    (pts = [] -> r = 0).
Proof.
  intros Hv Hfit.
  destruct (main_floor_max 1 pts Hv) as [r [Hr Hfm]]; [lia | | ].
  { intros i j [Hi Hj]. change (window_sum pts 1 i j) with (cell_sum pts (i - 1) (j - 1)).
    apply Hfit. unfold cell. lia. }
  assert (Hcell : floor_max (cell MAXC) (cell_sum pts) r).
  { apply floor_max_shift.
    apply (floor_max_ext (window MAXC 1) _ (window_sum pts 1) _ r); [ | | exact Hfm].
    - intros i j. unfold window, cell. lia.
    - intros i j _. unfold window_sum, cell_sum. f_equal; lia. }
  exists r. split; [exact Hr | split; [exact Hcell | split]].
  - intros Hnd. destruct (max_value_spec pts) as (H0 & Hub & Hat).
    apply (floor_max_value _ _ _ _ Hcell); [exact H0 | | ].
    + intros x y _.
      destruct (cell_sum_nodup pts x y Hnd) as [[-> _] | (p & Hp & _ & ->)];
        [exact H0 | now apply Hub].
    + destruct Hat as [Hz | (p & Hp & Hpv)]; [now left | right].
      exists (px p), (py p). split.
      * unfold valid_points in Hv. rewrite Forall_forall in Hv.
        exact (Hv p Hp).
      * rewrite <- Hpv. now apply cell_sum_of_point.
  - intros ->. apply (floor_max_value _ _ _ _ Hcell); [lia | | now left].
    intros x y _. unfold cell_sum, rect_sum. simpl. lia.
Qed.

Lemma C6_side_one_max_cell_witness :
  exists r,
    main 1 [mkPoint 0 0 2147483647; mkPoint 5 5 2147483647] = Some r /\
    floor_max (cell MAXC)
      (cell_sum [mkPoint 0 0 2147483647; mkPoint 5 5 2147483647]) r /\
    (NoDup (map coord [mkPoint 0 0 2147483647; mkPoint 5 5 2147483647]) ->
     r = max_value [mkPoint 0 0 2147483647; mkPoint 5 5 2147483647]) /\
    ([mkPoint 0 0 2147483647; mkPoint 5 5 2147483647] = [] -> r = 0).
Proof.
  apply (C6_side_one_max_cell [mkPoint 0 0 2147483647; mkPoint 5 5 2147483647]).
  - unfold valid_points. valid_list.
  - intros x y _. unfold int_min, int_max. window_cases.
Defined.

(** ** C7: the floor at 0 *)

(** A negative side makes the first query read [s[m][m]] outside the table:
    the properties of the scan are stated for [m >= 0]. *)
Lemma scan_from_negative_side (d : Z) (s : grid) (m : Z) :
  m < 0 -> m < d -> scan_from d s m = None.
Proof.
  intros Hm Hd. unfold scan_from, for_range.
  destruct (Z.to_nat (d - m)) as [| k] eqn:E; [lia | ].
  simpl. unfold scan_row at 1. unfold for_range. rewrite E. simpl.
  unfold scan_cell at 1. unfold window_query, rd.
  assert (in_bounds d m m = false) as -> by (apply in_bounds_false; lia).
  reflexivity.
Qed.

(** C7: for a side [m >= 1], [maxWindowSum] returns 0 on any table when no
    window fits ([m > C]) and when every window's query is at most 0; the
    program prints 0 for an input without points. *)
Theorem C7_maxWindowSum_zero_floor (m : Z) :
  1 <= m ->
  (forall s, C < m -> maxWindowSum s m = Some 0) /\
  (forall s,
     (forall i j, window MAXC m i j ->
                  exists v, window_query MAXC s m i j = Some v /\ v <= 0) ->
     maxWindowSum s m = Some 0) /\
  main m [] = Some 0 /\
  (forall rest, main_stdin (0 :: m :: rest) = Some 0).
Proof.
  intros Hm.
  assert (Hscan : forall s,
             (forall i j, window MAXC m i j -> window_value s m i j <= 0) ->
             maxWindowSum s m = Some 0).
  { intros s Hle.
    destruct (scan_from_floor_max MAXC s m (window_value s m)) as [r [Hr Hfm]].
    - intros i j Hw. apply window_query_value; [lia | exact Hw].
    - unfold maxWindowSum. rewrite Hr. f_equal.
      apply (floor_max_value _ _ _ _ Hfm); [lia | exact Hle | now left]. }
  assert (Hnil : main m [] = Some 0).
  { apply main_value.
    - apply Forall_nil.
    - lia.
    - vm_compute. discriminate.
    - lia.
    - intros i j _. unfold window_sum, rect_sum. simpl. lia.
    - now left. }
  split; [ | split; [ | split; [exact Hnil | ]]].
  - intros s Hc. apply Hscan. intros i j [Hi Hj].
    rewrite C_eq in Hc. rewrite MAXC_eq in Hi. lia.
  - intros s Hq. apply Hscan. intros i j Hw.
    destruct (Hq i j Hw) as [v [Hv Hle]].
    rewrite window_query_value in Hv by (lia || exact Hw).
    injection Hv as ->. exact Hle.
  - intros rest. rewrite <- Hnil. exact (main_stdin_points m [] rest).
Qed.

Lemma C7_maxWindowSum_zero_floor_witness :
  main_stdin [0; 1] = Some 0.
Proof.
  apply (C7_maxWindowSum_zero_floor 1). lia.
Defined.

(** ** C8: ingestion does not check the coordinates *)

(** C8, as stated, fails: the coordinate [x = -1] is outside [0, C], and
    ingestion reports nothing and writes the value into row 0 of the
    table. *)
Lemma C8_unchecked_write_counterexample :
  ~ (0 <= px (mkPoint (-1) 0 5) <= C) /\
  zero_grid 0 1 = 0 /\
  exists rawAccum,
    ingest [mkPoint (-1) 0 5] zero_grid = Some rawAccum /\ rawAccum 0 1 = 5.
Proof.
  split; [cbn [px]; lia | split; [reflexivity | ]].
  eexists. split; [reflexivity | reflexivity].
Qed.

(** C8, amended: ingestion has no range check and no error of its own. A
    point with [-1 <= x, y <= C - 1] is added to [s[x+1][y+1]] and no other
    cell changes; for any other point the access [s[x+1][y+1]] is outside
    the table and the step has no result. *)
Theorem C8_ingest_point_unchecked (s : grid) (p : point) :
  ((-1 <= px p <= C - 1 /\ -1 <= py p <= C - 1) ->
   exists s',
     ingest_point MAXC s p = Some s' /\
     s' (px p + 1) (py p + 1) = wrap (s (px p + 1) (py p + 1) + pv p) /\
     forall a b, a <> px p + 1 \/ b <> py p + 1 -> s' a b = s a b) /\
  (~ (-1 <= px p <= C - 1 /\ -1 <= py p <= C - 1) ->
   ingest_point MAXC s p = None).
Proof.
  rewrite C_eq. split.
  - intros H. eexists. split; [ | split].
    + apply ingest_point_writable. unfold writable. rewrite MAXC_eq. lia.
    + now rewrite upd_same.
    + intros a b Hab. now apply upd_other.
  - intros H. apply ingest_point_outside. unfold writable. rewrite MAXC_eq. lia.
Qed.

Lemma C8_ingest_point_unchecked_witness :
  exists s',
    ingest_point MAXC zero_grid (mkPoint 3 3 5) = Some s' /\
    s' (3 + 1) (3 + 1) = wrap (zero_grid (3 + 1) (3 + 1) + 5) /\
    forall a b, a <> 3 + 1 \/ b <> 3 + 1 -> s' a b = zero_grid a b.
Proof.
  apply (proj1 (C8_ingest_point_unchecked zero_grid (mkPoint 3 3 5))).
  rewrite C_eq. cbn [px py]. lia.
Defined.

(** ** C9: the sample of the problem statement *)

Lemma main_sample :
  main 1 [mkPoint 0 0 1; mkPoint 1 1 1] = Some 1.
Proof.
  apply main_value.
  - unfold valid_points. valid_list.
  - lia.
  - vm_compute. discriminate.
  - lia.
  - intros i j _. window_cases.
  - right. exists 1, 1. split; [unfold window; rewrite MAXC_eq; lia | reflexivity].
Qed.

(** C9: the input [2 1 / 0 0 1 / 1 1 1] prints 1. *)
Theorem C9_sample_output :
  main_stdin [2; 1; 0; 0; 1; 1; 1; 1] = Some 1.
Proof.
  rewrite <- main_sample.
  exact (main_stdin_points 1 [mkPoint 0 0 1; mkPoint 1 1 1] []).
Qed.

(** ** C10: when the write leaves the table *)

(** C10, as stated, fails at its lower bound: the point [(-1, -1)] is
    outside [0 <= x, y <= 5003] and its write, to [s[0][0]], is inside the
    table. *)
Lemma C10_lower_bound_counterexample :
  ~ (0 <= px (mkPoint (-1) (-1) 1) <= 5003 /\
     0 <= py (mkPoint (-1) (-1) 1) <= 5003) /\
  rd MAXC zero_grid (px (mkPoint (-1) (-1) 1) + 1) (py (mkPoint (-1) (-1) 1) + 1)
  = Some 0 /\
  exists rawAccum,
    ingest [mkPoint (-1) (-1) 1] zero_grid = Some rawAccum /\ rawAccum 0 0 = 1.
Proof.
  split; [cbn [px py]; lia | split; [reflexivity | ]].
  eexists. split; [reflexivity | reflexivity].
Qed.

(** C10, amended: the write is unguarded. Some input makes ingestion fail
    on an access outside the table, at either end of the range; ingestion
    fails exactly when some point has [x] or [y] outside [-1, 5003]; so it
    cannot fail under [0 <= x, y <= 5003]. *)
Theorem C10_ingest_fails_iff :
  (ingest [mkPoint 5004 0 1] zero_grid = None /\
   ingest [mkPoint 0 (-2) 1] zero_grid = None) /\
  (forall pts s,
     ingest pts s = None <->
     Exists (fun p => ~ (-1 <= px p <= 5003 /\ -1 <= py p <= 5003)) pts) /\
  (forall pts s,
     Forall (fun p => 0 <= px p <= 5003 /\ 0 <= py p <= 5003) pts ->
     exists rawAccum, ingest pts s = Some rawAccum).
Proof.
  assert (Hiff : forall pts s,
             ingest pts s = None <->
             Exists (fun p => ~ (-1 <= px p <= 5003 /\ -1 <= py p <= 5003)) pts).
  { intros pts s. unfold ingest. rewrite ingest_from_none.
    unfold writable. rewrite MAXC_eq. reflexivity. }
  split; [split; reflexivity | split; [exact Hiff | ]].
  intros pts s Hall.
  destruct (ingest pts s) as [raw | ] eqn:E; [now exists raw | ].
  exfalso. apply Hiff in E. apply Exists_exists in E.
  destruct E as (p & Hp & Hout). rewrite Forall_forall in Hall.
  specialize (Hall p Hp). lia.
Qed.

Lemma C10_ingest_fails_iff_witness :
  exists rawAccum, ingest [mkPoint 0 0 1; mkPoint 5003 5003 1] zero_grid = Some rawAccum.
Proof.
  apply (proj2 (proj2 C10_ingest_fails_iff)).
  repeat (apply Forall_cons; [cbn [px py]; lia | ]). apply Forall_nil.
Defined.

(** * Further properties of the program *)

(** ** The build on any table *)

Lemma bind_none {A B : Type} (k : A -> option B) : bind None k = None.
Proof. reflexivity. Qed.

Lemma build_cell_rec_inv (d : Z) (raw : grid) (i j : Z) (s : grid) :
  1 <= i < d -> 1 <= j < d -> build_rec_inv d raw i j s ->
  exists s', build_cell d i j s = Some s' /\ build_rec_inv d raw i (j + 1) s'.
Proof.
  intros Hi Hj Hinv. unfold build_cell.
  rewrite !rd_in by lia. simpl. rewrite wr_in by lia.
  eexists. split; [reflexivity | ].
  rewrite (proj2 (Hinv i j)) by (unfold built; lia).
  intros a b.
  destruct (Z.eq_dec a i) as [-> | Ha]; [destruct (Z.eq_dec b j) as [-> | Hb] | ].
  - rewrite upd_same. split; [intros _ | unfold built; lia].
    rewrite !upd_other by lia. reflexivity.
  - rewrite upd_other by now right. split; intros H.
    + rewrite !upd_other by (unfold built in H; lia).
      apply (proj1 (Hinv i b)). unfold built in *. lia.
    + apply (proj2 (Hinv i b)). unfold built in *. lia.
  - rewrite upd_other by now left. split; intros H.
    + rewrite !upd_other by (unfold built in H; lia).
      apply (proj1 (Hinv a b)). unfold built in *. lia.
    + apply (proj2 (Hinv a b)). unfold built in *. lia.
Qed.

Lemma build_row_rec_inv (d : Z) (raw : grid) (i : Z) (s : grid) :
  1 <= i < d -> build_rec_inv d raw i 1 s ->
  exists s', build_row d i s = Some s' /\ build_rec_inv d raw (i + 1) 1 s'.
Proof.
  intros Hi Hinv. unfold build_row.
  destruct (for_range_inv (build_rec_inv d raw i) 1 d (build_cell d i) s Hinv)
    as [s' [Hs' Hinv']].
  - intros j s0 Hj. now apply build_cell_rec_inv.
  - exists s'. split; [exact Hs' | ].
    replace (Z.max 1 d) with d in Hinv' by lia.
    intros a b. split; intros H.
    + apply (proj1 (Hinv' a b)). unfold built in *. lia.
    + apply (proj2 (Hinv' a b)). unfold built in *. lia.
Qed.

Lemma build_from_rec (d : Z) (raw : grid) :
  1 <= d ->
  exists table,
    build_from d raw = Some table /\
    (forall a b, ~ (1 <= a < d /\ 1 <= b < d) -> table a b = raw a b) /\
    (forall i j, 1 <= i < d -> 1 <= j < d ->
       table i j
       = add32 (raw i j)
           (sub32 (add32 (table (i - 1) j) (table i (j - 1)))
              (table (i - 1) (j - 1)))).
Proof.
  intros Hd. unfold build_from.
  destruct (for_range_inv (fun i => build_rec_inv d raw i 1) 1 d (build_row d) raw)
    as [table [Ht Hinv]].
  - intros a b. split; [ | reflexivity]. unfold built. lia.
  - intros i s Hi. now apply build_row_rec_inv.
  - exists table. split; [exact Ht | ].
    replace (Z.max 1 d) with d in Hinv by lia. split.
    + intros a b H. apply (proj2 (Hinv a b)). unfold built. lia.
    + intros i j Hi Hj. apply (proj1 (Hinv i j)). unfold built. lia.
Qed.

(** X1: on every table [buildPrefixSums] runs to its end, changes no cell
    of row 0 or column 0, and leaves in every other cell the [int] sum of
    what the cell held and of its three neighbours in the built table. *)
Theorem X1_buildPrefixSums_any_table (s : grid) :
  exists table,
    buildPrefixSums s = Some table /\
    (forall k, table 0 k = s 0 k /\ table k 0 = s k 0) /\
    (forall i j, 1 <= i < MAXC -> 1 <= j < MAXC ->
       table i j
       = add32 (s i j)
           (sub32 (add32 (table (i - 1) j) (table i (j - 1)))
              (table (i - 1) (j - 1)))).
Proof.
  destruct (build_from_rec MAXC s) as (table & Ht & Hb & Hrec);
    [rewrite MAXC_eq; lia | ].
  exists table. split; [exact Ht | split; [ | exact Hrec]].
  intros k. split; apply Hb; lia.
Qed.

(** ** The scan on any table *)

Lemma window_value_range (s : grid) (m i j : Z) :
  int_min <= window_value s m i j <= int_max.
Proof. unfold window_value, add32. apply wrap_range. Qed.

Lemma window_value_side_0 (s : grid) (i j : Z) : window_value s 0 i j = 0.
Proof.
  unfold window_value, add32, sub32. rewrite !Z.sub_0_r.
  change 0 with (wrap 0) at 1. apply wrap_eqm. rewrite !wrap_eqm_self.
  exists 0. lia.
Qed.

(** X2: on every table [maxWindowSum] has a result exactly for a side
    [m >= 0]; the result is the maximum, floored at 0, of the queries of
    the windows [m <= i, j < MAXC], and lies in [0, INT_MAX]. *)
Theorem X2_maxWindowSum_any_table (s : grid) (m : Z) :
  (maxWindowSum s m = None <-> m < 0) /\
  (0 <= m ->
   exists r,
     maxWindowSum s m = Some r /\
     floor_max (window MAXC m) (window_value s m) r /\
     0 <= r <= int_max).
Proof.
  assert (Hsome : 0 <= m ->
            exists r, maxWindowSum s m = Some r /\
                      floor_max (window MAXC m) (window_value s m) r /\
                      0 <= r <= int_max).
  { intros Hm.
    destruct (scan_from_floor_max MAXC s m (window_value s m)) as [r [Hr Hfm]].
    - intros i j Hw. now apply window_query_value.
    - exists r. split; [exact Hr | split; [exact Hfm | ]].
      destruct Hfm as (H0 & _ & [-> | (i & j & _ & <-)]).
      + unfold int_max. lia.
      + split; [exact H0 | apply window_value_range]. }
  split; [ | exact Hsome].
  split.
  - intros Hnone. destruct (Z_lt_le_dec m 0) as [Hlt | Hge]; [exact Hlt | ].
    destruct (Hsome Hge) as [r [Hr _]]. congruence.
  - intros Hlt. apply scan_from_negative_side; [exact Hlt | rewrite MAXC_eq; lia].
Qed.

(** X3: with side 0 every query is [s[i][j] - s[i][j] - s[i][j] + s[i][j]]
    and the answer is 0, whatever the table holds. *)
Theorem X3_side_zero_any_table (s : grid) : maxWindowSum s 0 = Some 0.
Proof.
  destruct (scan_from_floor_max MAXC s 0 (window_value s 0)) as [r [Hr Hfm]].
  - intros i j Hw. apply window_query_value; [lia | exact Hw].
  - unfold maxWindowSum. rewrite Hr. f_equal.
    apply (floor_max_value _ _ _ _ Hfm); [lia | | now left].
    intros i j _. rewrite window_value_side_0. lia.
Qed.

(** ** Points on row 0 and column 0 *)

Lemma border_prefix_rec (pts : list point) (i j : Z) :
  1 <= i -> 1 <= j ->
  border_prefix pts i j
  = border_prefix pts (i - 1) j + border_prefix pts i (j - 1)
    - border_prefix pts (i - 1) (j - 1) + cell_sum pts (i - 1) (j - 1).
Proof.
  intros Hi Hj. unfold border_prefix. rewrite (prefix_sum_rec pts i j) by lia. lia.
Qed.

Lemma border_prefix_row_0 (pts : list point) (b : Z) :
  border_prefix pts 0 b = cell_sum pts (0 - 1) (b - 1).
Proof.
  unfold border_prefix. rewrite prefix_sum_border by (left; lia).
  replace (0 - 1) with (-1) by lia. lia.
Qed.

Lemma border_prefix_col_0 (pts : list point) (a : Z) :
  border_prefix pts a 0 = cell_sum pts (a - 1) (0 - 1).
Proof.
  unfold border_prefix. rewrite prefix_sum_border by (right; lia).
  replace (0 - 1) with (-1) by lia. lia.
Qed.

Lemma border_prefix_window (pts : list point) (m i j : Z) :
  0 <= m <= i -> m <= j ->
  border_prefix pts i j - border_prefix pts (i - m) j
  - border_prefix pts i (j - m) + border_prefix pts (i - m) (j - m)
  = window_sum pts m i j.
Proof.
  intros Hi Hj. rewrite <- prefix_sum_window by lia. unfold border_prefix. lia.
Qed.

(** The built table in closed form, from the recurrence of its cells. *)
Lemma built_table_closed_form (d : Z) (pts : list point) (raw table : grid) :
  (forall a b, raw a b = wrap (cell_sum pts (a - 1) (b - 1))) ->
  (forall a b, ~ (1 <= a < d /\ 1 <= b < d) -> table a b = raw a b) ->
  (forall i j, 1 <= i < d -> 1 <= j < d ->
     table i j
     = add32 (raw i j)
         (sub32 (add32 (table (i - 1) j) (table i (j - 1)))
            (table (i - 1) (j - 1)))) ->
  forall i, 0 <= i -> i < d ->
  forall j, 0 <= j -> j < d -> table i j = wrap (border_prefix pts i j).
Proof.
  intros Hraw Hb Hrec.
  assert (Hrow0 : forall j, table 0 j = wrap (border_prefix pts 0 j)).
  { intros j. rewrite Hb by lia. now rewrite Hraw, border_prefix_row_0. }
  assert (Hcol0 : forall i, table i 0 = wrap (border_prefix pts i 0)).
  { intros i. rewrite Hb by lia. now rewrite Hraw, border_prefix_col_0. }
  intros i Hi. pattern i. apply natlike_ind; [ | | exact Hi].
  - intros _ j _ _. apply Hrow0.
  - clear i Hi. intros i Hi IHi Hid j Hj. pattern j.
    apply natlike_ind; [ | | exact Hj].
    + intros _. apply Hcol0.
    + clear j Hj. intros j Hj IHj Hjd.
      rewrite Hrec by lia.
      replace (Z.succ i - 1) with i by lia.
      replace (Z.succ j - 1) with j by lia.
      rewrite (IHi ltac:(lia) (Z.succ j)) by lia.
      rewrite (IHi ltac:(lia) j) by lia.
      rewrite IHj by lia.
      rewrite Hraw, build_value. f_equal.
      rewrite (border_prefix_rec pts (Z.succ i) (Z.succ j)) by lia.
      replace (Z.succ i - 1) with i by lia.
      replace (Z.succ j - 1) with j by lia. lia.
Qed.

(** The answer for points that are all written inside the table: row 0 and
    column 0 may hold values, and the queries cancel them. *)
Lemma run_floor_max_writable (d m : Z) (pts : list point) :
  1 <= d -> Forall (writable d) pts -> 0 <= m ->
  exists r,
    run d m pts = Some r /\
    floor_max (window d m) (fun i j => wrap (window_sum pts m i j)) r.
Proof.
  intros Hd Hw Hm.
  destruct (ingest_from_zero d pts Hw) as [raw [Hr Hc]].
  destruct (build_from_rec d raw Hd) as (table & Ht & Hb & Hrec).
  pose proof (built_table_closed_form d pts raw table Hc Hb Hrec) as Hclosed.
  destruct (scan_from_floor_max d table m
              (fun i j => wrap (window_sum pts m i j))) as [r [Hs Hfm]].
  - intros i j [Hi Hj]. unfold window_query.
    rewrite !rd_in by lia. simpl.
    rewrite !Hclosed by lia. rewrite query_value.
    now rewrite border_prefix_window by lia.
  - exists r. split; [ | exact Hfm].
    unfold run. rewrite Hr. simpl. rewrite Ht. simpl. exact Hs.
Qed.

(** ** When the program has a result *)

Lemma main_floor_max_writable (m : Z) (pts : list point) :
  Forall (writable MAXC) pts -> 0 <= m ->
  exists r,
    main m pts = Some r /\
    floor_max (window MAXC m) (fun i j => wrap (window_sum pts m i j)) r.
Proof.
  intros Hw Hm. apply run_floor_max_writable; try assumption.
  rewrite MAXC_eq. lia.
Qed.

Lemma main_negative_side (m : Z) (pts : list point) :
  m < 0 -> main m pts = None.
Proof.
  intros Hm. unfold main, run.
  destruct (ingest_from MAXC pts zero_grid) as [raw | ]; [ | apply bind_none].
  rewrite bind_some.
  destruct (build_from_rec MAXC raw) as (table & Ht & _); [rewrite MAXC_eq; lia | ].
  rewrite Ht, bind_some.
  apply scan_from_negative_side; [exact Hm | rewrite MAXC_eq; lia].
Qed.

Lemma main_unwritable (m : Z) (pts : list point) :
  Exists (fun p => ~ writable MAXC p) pts -> main m pts = None.
Proof.
  intros Hex. unfold main, run.
  rewrite (proj2 (ingest_from_none MAXC pts zero_grid) Hex). apply bind_none.
Qed.

Lemma writable_all_or_not (d : Z) (pts : list point) :
  {Forall (writable d) pts} + {Exists (fun p => ~ writable d p) pts}.
Proof. apply Forall_Exists_dec. apply writable_dec. Qed.

(** X4: the program has no result exactly when the side is negative (the
    first query reads [s[m][m]]) or some point has [x] or [y] outside
    [-1, 5003] (its write leaves the table); otherwise it prints a number
    in [0, INT_MAX]. *)
Theorem X4_main_defined_iff (m : Z) (pts : list point) :
  (main m pts = None <->
   m < 0 \/ Exists (fun p => ~ (-1 <= px p <= 5003 /\ -1 <= py p <= 5003)) pts) /\
  (forall r, main m pts = Some r -> 0 <= r <= int_max).
Proof.
  assert (Hwr : forall p, writable MAXC p <->
                          -1 <= px p <= 5003 /\ -1 <= py p <= 5003).
  { intros p. unfold writable. rewrite MAXC_eq. lia. }
  assert (Hex : Exists (fun p => ~ writable MAXC p) pts <->
                Exists (fun p => ~ (-1 <= px p <= 5003 /\ -1 <= py p <= 5003)) pts).
  { rewrite !Exists_exists. split; intros (p & Hp & Hn); exists p;
      (split; [exact Hp | ]); intros H; apply Hn; now apply Hwr. }
  split; [split | ].
  - intros Hnone.
    destruct (Z_lt_le_dec m 0) as [Hlt | Hge]; [now left | right].
    destruct (writable_all_or_not MAXC pts) as [Hall | Hsome]; [ | now apply Hex].
    destruct (main_floor_max_writable m pts Hall Hge) as [r [Hr _]]. congruence.
  - intros [Hlt | Hout]; [now apply main_negative_side | ].
    apply main_unwritable. now apply Hex.
  - intros r Hr.
    destruct (Z_lt_le_dec m 0) as [Hlt | Hge];
      [rewrite (main_negative_side m pts Hlt) in Hr; discriminate | ].
    destruct (writable_all_or_not MAXC pts) as [Hall | Hsome];
      [ | rewrite (main_unwritable m pts Hsome) in Hr; discriminate].
    destruct (main_floor_max_writable m pts Hall Hge) as [r' [Hr' Hfm]].
    assert (r' = r) as -> by congruence.
    destruct Hfm as (H0 & _ & [-> | (i & j & _ & <-)]).
    + unfold int_max. lia.
    + split; [exact H0 | apply wrap_range].
Qed.

(** ** Points that are never counted, and the order of the points *)

Lemma rect_sum_on_table (pts : list point) (x0 x1 y0 y1 : Z) :
  0 <= x0 -> 0 <= y0 ->
  rect_sum (filter on_table pts) x0 x1 y0 y1 = rect_sum pts x0 x1 y0 y1.
Proof.
  intros Hx Hy. induction pts as [| p pts IH]; [reflexivity | ].
  simpl. rewrite rect_sum_cons. destruct (on_table p) eqn:E.
  - rewrite rect_sum_cons, IH. reflexivity.
  - rewrite IH.
    assert (inside x0 x1 y0 y1 p = false) as ->; [ | lia].
    destruct (inside x0 x1 y0 y1 p) eqn:E'; [ | reflexivity].
    apply inside_spec in E'. unfold on_table in E.
    apply andb_false_iff in E. rewrite !Z.leb_gt in E. lia.
Qed.

Lemma writable_filter_on_table (d : Z) (pts : list point) :
  Forall (writable d) pts -> Forall (writable d) (filter on_table pts).
Proof.
  rewrite !Forall_forall. intros H p Hp. apply filter_In in Hp. now apply H.
Qed.

(** X5: a point with [x = -1] or [y = -1] is written on row 0 or column 0
    and is never counted: dropping these points from the input does not
    change what the program prints. *)
Theorem X5_border_points_ignored (m : Z) (pts : list point) :
  Forall (writable MAXC) pts ->
  main m pts = main m (filter on_table pts).
Proof.
  intros Hw.
  destruct (Z_lt_le_dec m 0) as [Hlt | Hge];
    [now rewrite !main_negative_side | ].
  destruct (main_floor_max_writable m pts Hw Hge) as [r [Hr Hfm]].
  destruct (main_floor_max_writable m (filter on_table pts)) as [r' [Hr' Hfm']];
    [now apply writable_filter_on_table | exact Hge | ].
  rewrite Hr, Hr'. f_equal.
  apply (floor_max_unique _ _ _ _ Hfm).
  apply (floor_max_ext (window MAXC m) (window MAXC m)
           (fun i j => wrap (window_sum (filter on_table pts) m i j)));
    [reflexivity | | exact Hfm'].
  intros i j [Hi Hj]. unfold window_sum. now rewrite rect_sum_on_table by lia.
Qed.

Lemma X5_border_points_ignored_witness :
  main 2 [mkPoint (-1) 3 9; mkPoint 0 0 1; mkPoint 4 (-1) 9]
  = main 2 (filter on_table [mkPoint (-1) 3 9; mkPoint 0 0 1; mkPoint 4 (-1) 9]).
Proof.
  apply (X5_border_points_ignored 2). valid_list.
Defined.

Lemma rect_sum_perm (pts pts' : list point) (x0 x1 y0 y1 : Z) :
  Permutation pts pts' -> rect_sum pts x0 x1 y0 y1 = rect_sum pts' x0 x1 y0 y1.
Proof.
  induction 1 as [| p l l' _ IH | p q l | l l' l'' _ IH1 _ IH2].
  - reflexivity.
  - now rewrite !rect_sum_cons, IH.
  - rewrite !rect_sum_cons. lia.
  - now rewrite IH1.
Qed.

(** X6: the order of the points in the input does not matter: two inputs
    with the same points in any order print the same, or both have no
    result. *)
Theorem X6_point_order_irrelevant (m : Z) (pts pts' : list point) :
  Permutation pts pts' -> main m pts = main m pts'.
Proof.
  intros Hp.
  destruct (Z_lt_le_dec m 0) as [Hlt | Hge];
    [now rewrite !main_negative_side | ].
  destruct (writable_all_or_not MAXC pts) as [Hall | Hsome].
  - assert (Hall' : Forall (writable MAXC) pts')
      by (apply (Permutation_Forall Hp); exact Hall).
    destruct (main_floor_max_writable m pts Hall Hge) as [r [Hr Hfm]].
    destruct (main_floor_max_writable m pts' Hall' Hge) as [r' [Hr' Hfm']].
    rewrite Hr, Hr'. f_equal.
    apply (floor_max_unique _ _ _ _ Hfm).
    apply (floor_max_ext (window MAXC m) (window MAXC m)
             (fun i j => wrap (window_sum pts' m i j)));
      [reflexivity | | exact Hfm'].
    intros i j _. unfold window_sum. f_equal. symmetry. now apply rect_sum_perm.
  - assert (Hsome' : Exists (fun p => ~ writable MAXC p) pts').
    { apply Exists_exists in Hsome. destruct Hsome as (p & Hin & Hn).
      apply Exists_exists. exists p. split; [ | exact Hn].
      now apply (Permutation_in _ Hp). }
    now rewrite !main_unwritable.
Qed.

Lemma X6_point_order_irrelevant_witness :
  main 2 [mkPoint 0 0 1; mkPoint 1 1 2; mkPoint 7 7 3]
  = main 2 [mkPoint 7 7 3; mkPoint 0 0 1; mkPoint 1 1 2].
Proof.
  apply X6_point_order_irrelevant.
  apply Permutation_sym.
  apply (Permutation_cons_app [mkPoint 0 0 1; mkPoint 1 1 2] [] (mkPoint 7 7 3)).
  apply Permutation_refl.
Defined.

(** ** Bounds of the answer, and placements outside the table *)

Lemma rect_sum_mono_on (pts : list point) (x0 x1 y0 y1 x0' x1' y0' y1' : Z) :
  nonneg_values pts ->
  (forall p, In p pts -> inside x0 x1 y0 y1 p = true ->
             inside x0' x1' y0' y1' p = true) ->
  rect_sum pts x0 x1 y0 y1 <= rect_sum pts x0' x1' y0' y1'.
Proof.
  intros Hn. induction Hn as [| p pts Hp _ IH]; intros Hsub;
    [unfold rect_sum; simpl; lia | ].
  rewrite !rect_sum_cons.
  assert (IH' : rect_sum pts x0 x1 y0 y1 <= rect_sum pts x0' x1' y0' y1').
  { apply IH. intros q Hq. apply Hsub. now right. }
  destruct (inside x0 x1 y0 y1 p) eqn:E.
  - rewrite (Hsub p (or_introl eq_refl) E). lia.
  - destruct (inside x0' x1' y0' y1' p); lia.
Qed.

Lemma rect_sum_ge_point (pts : list point) (x0 x1 y0 y1 : Z) (p : point) :
  nonneg_values pts -> In p pts -> inside x0 x1 y0 y1 p = true ->
  pv p <= rect_sum pts x0 x1 y0 y1.
Proof.
  intros Hn. induction Hn as [| q pts Hq Hn' IH]; intros Hin Hp; [destruct Hin | ].
  rewrite rect_sum_cons.
  pose proof (rect_sum_nonneg pts x0 x1 y0 y1 Hn') as Hge.
  destruct Hin as [-> | Hin].
  - rewrite Hp. lia.
  - specialize (IH Hin Hp). destruct (inside x0 x1 y0 y1 q); lia.
Qed.

Lemma rect_sum_le_total (pts : list point) (x0 x1 y0 y1 : Z) :
  nonneg_values pts -> rect_sum pts x0 x1 y0 y1 <= sum_values pts.
Proof.
  intros Hn. rewrite <- (sum_abs_nonneg_values pts Hn).
  pose proof (rect_sum_abs pts x0 x1 y0 y1). lia.
Qed.

(** Every square of side [m] of the plane captures, among points of valid
    coordinates, no more than some window of the scan. *)
Lemma placement_in_window (pts : list point) (m x0 y0 : Z) :
  valid_points MAXC pts -> nonneg_values pts -> 1 <= m <= C ->
  exists i j,
    window MAXC m i j /\ placement_sum pts m x0 y0 <= window_sum pts m i j.
Proof.
  intros Hv Hn Hm. rewrite C_eq in Hm.
  exists (Z.max m (Z.min (x0 + m) (MAXC - 1))), (Z.max m (Z.min (y0 + m) (MAXC - 1))).
  split; [unfold window; rewrite MAXC_eq; lia | ].
  unfold placement_sum, window_sum. apply rect_sum_mono_on; [exact Hn | ].
  intros p Hp Hin. apply inside_spec in Hin. apply inside_spec.
  unfold valid_points in Hv. rewrite Forall_forall in Hv.
  specialize (Hv p Hp). unfold valid_point in Hv.
  rewrite MAXC_eq in *. lia.
Qed.

(** For values that are not negative the answer is the maximum over the
    squares of side [m] anywhere in the plane. *)
Lemma main_max_placement (m : Z) (pts : list point) :
  valid_points MAXC pts -> nonneg_values pts -> sum_values pts <= int_max ->
  1 <= m <= C ->
  exists r,
    main m pts = Some r /\
    is_max (fun _ _ => True) (placement_sum pts m) r.
Proof.
  intros Hv Hn Hsum Hm.
  assert (Hfit : sum_abs pts <= int_max) by now rewrite sum_abs_nonneg_values.
  destruct (main_floor_max m pts Hv) as [r [Hr (H0 & Hub & Hat)]]; [lia | | ].
  { intros i j _. now apply window_sum_fits. }
  exists r. split; [exact Hr | split].
  - assert (Hex : exists i j, window MAXC m i j /\ window_sum pts m i j = r).
    { destruct Hat as [-> | Hex]; [ | exact Hex].
      exists m, m.
      assert (Hw : window MAXC m m m)
        by (unfold window; rewrite C_eq in Hm; rewrite MAXC_eq; lia).
      split; [exact Hw | ]. specialize (Hub m m Hw).
      pose proof (rect_sum_nonneg pts (m - m) (m - 1) (m - m) (m - 1) Hn).
      unfold window_sum in *. lia. }
    destruct Hex as (i & j & _ & <-).
    exists (i - m), (j - m). split; [exact I | ].
    unfold placement_sum, window_sum. f_equal; lia.
  - intros x0 y0 _.
    destruct (placement_in_window pts m x0 y0 Hv Hn Hm) as (i & j & Hw & Hle).
    specialize (Hub i j Hw). lia.
Qed.


(** X7: for values that are not negative and a side [1 <= m <= C], the
    answer is at least the largest single value and at least what any one
    coordinate holds, and at most the sum of all the values. *)
Theorem X7_answer_bounds (m : Z) (pts : list point) :
  valid_points MAXC pts -> nonneg_values pts -> sum_values pts <= int_max ->
  1 <= m <= C ->
  exists r,
    main m pts = Some r /\
    max_value pts <= r /\
    (forall x y, cell_sum pts x y <= r) /\
    r <= sum_values pts.
Proof.
  intros Hv Hn Hsum Hm.
  destruct (main_max_placement m pts Hv Hn Hsum Hm)
    as [r [Hr [(x0 & y0 & _ & Hat) Hub]]].
  assert (Hcell : forall x y, cell_sum pts x y <= r).
  { intros x y. apply Z.le_trans with (placement_sum pts m x y); [ | now apply Hub].
    unfold cell_sum, placement_sum. apply rect_sum_mono; [exact Hn | lia ..]. }
  exists r. split; [exact Hr | split; [ | split; [exact Hcell | ]]].
  - destruct (max_value_spec pts) as (_ & _ & [-> | (p & Hp & <-)]).
    + rewrite <- Hat. unfold placement_sum. now apply rect_sum_nonneg.
    + apply Z.le_trans with (cell_sum pts (px p) (py p)); [ | apply Hcell].
      unfold cell_sum. apply rect_sum_ge_point; [exact Hn | exact Hp | ].
      apply inside_spec. lia.
  - rewrite <- Hat. unfold placement_sum. now apply rect_sum_le_total.
Qed.

Lemma X7_answer_bounds_witness :
  exists r,
    main 2 [mkPoint 0 0 1; mkPoint 1 1 2; mkPoint 7 7 3] = Some r /\
    max_value [mkPoint 0 0 1; mkPoint 1 1 2; mkPoint 7 7 3] <= r /\
    (forall x y, cell_sum [mkPoint 0 0 1; mkPoint 1 1 2; mkPoint 7 7 3] x y <= r) /\
    r <= sum_values [mkPoint 0 0 1; mkPoint 1 1 2; mkPoint 7 7 3].
Proof.
  apply (X7_answer_bounds 2 [mkPoint 0 0 1; mkPoint 1 1 2; mkPoint 7 7 3]).
  - unfold valid_points. valid_list.
  - unfold nonneg_values.
    repeat (apply Forall_cons; [cbn [pv]; lia | ]). apply Forall_nil.
  - vm_compute. discriminate.
  - rewrite C_eq. lia.
Defined.



(** ** Moving and adding points *)










(** ** Ingestion into any table *)

(** X12: ingestion into any table, for points that are all written inside
    it, changes no cell other than the cells [(x+1, y+1)] of its points. *)
Theorem X12_ingest_frame (pts : list point) (s : grid) :
  Forall (writable MAXC) pts ->
  exists rawAccum,
    ingest pts s = Some rawAccum /\
    forall a b,
      (forall p, In p pts -> a <> px p + 1 \/ b <> py p + 1) ->
      rawAccum a b = s a b.
Proof.
  unfold ingest. revert s.
  induction pts as [| p pts IH]; intros s Hw.
  - exists s. split; [reflexivity | reflexivity].
  - inversion Hw as [| ? ? Hp Hrest]; subst.
    simpl. rewrite (ingest_point_writable MAXC s p Hp), bind_some.
    destruct (IH (upd s (px p + 1) (py p + 1)
                    (add32 (s (px p + 1) (py p + 1)) (pv p))) Hrest)
      as [raw [Hr Hframe]].
    exists raw. split; [exact Hr | ]. intros a b Hno.
    rewrite Hframe by (intros q Hq; apply Hno; now right).
    apply upd_other. apply Hno. now left.
Qed.

Lemma X12_ingest_frame_witness :
  exists rawAccum,
    ingest [mkPoint 3 3 5; mkPoint 0 (-1) 2] zero_grid = Some rawAccum /\
    forall a b,
      (forall p, In p [mkPoint 3 3 5; mkPoint 0 (-1) 2] ->
                 a <> px p + 1 \/ b <> py p + 1) ->
      rawAccum a b = zero_grid a b.
Proof.
  apply (X12_ingest_frame [mkPoint 3 3 5; mkPoint 0 (-1) 2] zero_grid).
  valid_list.
Defined.

(** ** The answer in [int] arithmetic *)

(** X13: for every input that has a result the answer is the maximum,
    floored at 0, of the windows' direct sums, each reduced once to the
    [int] range: prefix sums that wrap around inside the table do no harm,
    and the answer is exact as soon as the window sums themselves fit. *)
Theorem X13_answer_modulo_overflow (m : Z) (pts : list point) :
  Forall (writable MAXC) pts -> 0 <= m ->
  exists r,
    main m pts = Some r /\
    floor_max (window MAXC m) (fun i j => wrap (window_sum pts m i j)) r /\
    ((forall i j, window MAXC m i j ->
                  int_min <= window_sum pts m i j <= int_max) ->
     floor_max (window MAXC m) (window_sum pts m) r).
Proof.
  intros Hw Hm.
  destruct (main_floor_max_writable m pts Hw Hm) as [r [Hr Hfm]].
  exists r. split; [exact Hr | split; [exact Hfm | ]].
  intros Hfit.
  apply (floor_max_ext (window MAXC m) (window MAXC m)
           (fun i j => wrap (window_sum pts m i j))); [reflexivity | | exact Hfm].
  intros i j Hwin. apply wrap_small. now apply Hfit.
Qed.

Lemma X13_answer_modulo_overflow_witness :
  exists r,
    main 1 [mkPoint 0 0 2147483647; mkPoint 9 9 2147483647] = Some r /\
    floor_max (window MAXC 1)
      (fun i j => wrap (window_sum [mkPoint 0 0 2147483647;
                                    mkPoint 9 9 2147483647] 1 i j)) r /\
    ((forall i j, window MAXC 1 i j ->
        int_min <= window_sum [mkPoint 0 0 2147483647;
                               mkPoint 9 9 2147483647] 1 i j <= int_max) ->
     floor_max (window MAXC 1)
       (window_sum [mkPoint 0 0 2147483647; mkPoint 9 9 2147483647] 1) r).
Proof.
  apply (X13_answer_modulo_overflow 1
           [mkPoint 0 0 2147483647; mkPoint 9 9 2147483647]).
  - valid_list.
  - lia.
Defined.

(** ** The standard input *)

Lemma main_no_points (m : Z) : 0 <= m -> main m [] = Some 0.
Proof.
  intros Hm. apply main_value.
  - apply Forall_nil.
  - exact Hm.
  - vm_compute. discriminate.
  - lia.
  - intros i j _. unfold window_sum, rect_sum. simpl. lia.
  - now left.
Qed.

(** X14: a point count [n <= 0] reads no point: for a side [m >= 0] the
    program prints 0 whatever follows on the input. *)
Theorem X14_no_positive_count (n m : Z) (rest : list Z) :
  n <= 0 -> 0 <= m -> main_stdin (n :: m :: rest) = Some 0.
Proof.
  intros Hn Hm. unfold main_stdin.
  replace (Z.to_nat n) with O by lia.
  cbn [read_points]. rewrite bind_some. now apply main_no_points.
Qed.

Lemma X14_no_positive_count_witness :
  main_stdin [-3; 2; 7; 7; 7] = Some 0.
Proof.
  apply X14_no_positive_count; lia.
Defined.
